(** * CipherPayroll: the relayer wrappers of [frontend/public/js/relayer.js]

    A shallow embedding of the five exported operations of the module
    ([initRelayer], [encrypt64For], [userDecrypt], [publicDecrypt]) and of
    its helpers, followed by the properties of the client protocol.

    JavaScript strings are sequences of UTF-16 code units, module-level
    variables are fields of an explicit [state], and every call that
    leaves the module (SDK, wallet, clock) is answered by a stub that sees
    the log of the calls made so far. *)

From Stdlib Require Import ZArith NArith List Bool String Ascii Lia.
From Stdlib Require Import DecimalString.
From Stdlib Require DecimalPos.
From stdpp Require Import base option list countable gmap.
Import ListNotations.

Local Open Scope Z_scope.

(** ** JavaScript strings *)

Module JsString.

(** A string value is the list of its UTF-16 code units. *)

(** An ASCII literal as a JavaScript string. *)
Definition js (s : string) : list N :=
  List.map N_of_ascii (list_ascii_of_string s).

(** WhiteSpace and LineTerminator code units, the ones [trim] removes. *)
Definition is_space (c : N) : bool :=
  ((9 <=? c) && (c <=? 13) || (c =? 32) || (c =? 160) || (c =? 5760)
   || (8192 <=? c) && (c <=? 8202) || (c =? 8232) || (c =? 8233)
   || (c =? 8239) || (c =? 8287) || (c =? 12288) || (c =? 65279))%N.

Fixpoint trimStart (s : list N) : list N :=
  match s with
  | c :: s' => if is_space c then trimStart s' else s
  | [] => []
  end.

Definition trimEnd (s : list N) : list N := rev (trimStart (rev s)).

(** [s.trim()] *)
Definition trim (s : list N) : list N := trimEnd (trimStart s).

(** [s.replace(/\u200b/g, "")]: every ZERO WIDTH SPACE (code unit 8203)
    is dropped, and nothing else. *)
Definition strip_u200b (s : list N) : list N :=
  List.filter (fun c => negb (c =? 8203)%N) s.

(** [s.toLowerCase()] on the code units [A]..[Z].  Other code units are
    kept: no code unit outside [A]..[Z] lower-cases to a hexadecimal
    digit or to [x], so the pattern tests below see the same answer. *)
Definition lower (c : N) : N :=
  if ((65 <=? c) && (c <=? 90))%N then (c + 32)%N else c.

Definition toLowerCase (s : list N) : list N := List.map lower s.

Definition is_digit (c : N) : bool := ((48 <=? c) && (c <=? 57))%N.
Definition is_hex_lower (c : N) : bool :=
  is_digit c || ((97 <=? c) && (c <=? 102))%N.
Definition is_hex (c : N) : bool :=
  is_hex_lower c || ((65 <=? c) && (c <=? 70))%N.

(** [/^0x[0-9a-fA-F]{40}$/.test(s)] *)
Definition test_address (s : list N) : bool :=
  match s with
  | 48%N :: 120%N :: ds => (length ds =? 40)%nat && forallb is_hex ds
  | _ => false
  end.

(** [/^0x[0-9a-f]{40}$/.test(s)] *)
Definition test_address_lower (s : list N) : bool :=
  match s with
  | 48%N :: 120%N :: ds => (length ds =? 40)%nat && forallb is_hex_lower ds
  | _ => false
  end.

(** [s.replace(/^0x/, "")] *)
Definition strip_0x (s : list N) : list N :=
  match s with
  | 48%N :: 120%N :: rest => rest
  | _ => s
  end.

(** [[...new Set(xs)]]: first occurrences, in insertion order. *)
Fixpoint set_spread (seen xs : list (list N)) : list (list N) :=
  match xs with
  | [] => []
  | x :: xs' =>
      if bool_decide (x ∈ seen) then set_spread seen xs'
      else x :: set_spread (x :: seen) xs'
  end.

(** The decimal digits of an integer, as [toString()] prints it. *)
Definition of_Z (z : Z) : list N := js (NilZero.string_of_int (Z.to_int z)).

End JsString.

Import JsString.

(** ** JavaScript values and thrown errors *)

(** A Number, as far as the module can tell numbers apart: an integral
    value, [NaN], or any other one (a fraction or an infinity). *)
Inductive jsnumber :=
| NumInt (z : Z)
| NumNaN
| NumOther.

Inductive error_kind := KError | KTypeError | KRangeError | KSyntaxError.

(** The values that cross the module's boundary: primitives, byte arrays
    ([Uint8Array], the SDK's handles and proofs) and error objects. *)
Inductive jsval :=
| VUndefined
| VNull
| VBool (b : bool)
| VNumber (n : jsnumber)
| VBigInt (z : Z)
| VString (s : list N)
| VBytes (bs : list N)
| VError (k : error_kind) (msg : list N).

(** [new Error(msg)] *)
Definition Error (msg : list N) : jsval := VError KError msg.

(** An error raised by the runtime; its message text is engine-specific
    and left empty. *)
Definition runtime_error (k : error_kind) : jsval := VError k [].

(** ToBoolean *)
Definition truthy (v : jsval) : bool :=
  match v with
  | VUndefined | VNull => false
  | VBool b => b
  | VNumber (NumInt z) => negb (z =? 0)
  | VNumber NumNaN => false
  | VNumber NumOther => true
  | VBigInt z => negb (z =? 0)
  | VString s => negb (bool_decide (s = []))
  | VBytes _ | VError _ _ => true
  end.

Definition nullish (v : jsval) : bool :=
  match v with
  | VUndefined | VNull => true
  | _ => false
  end.

(** [a || b] on values already computed. *)
Definition or_else (a b : jsval) : jsval := if truthy a then a else b.

(** The outcome of an expression or call: a value, or a thrown one. *)
Inductive result (A : Type) :=
| Ok (a : A)
| Throw (e : jsval).
Arguments Ok {A} a.
Arguments Throw {A} e.

Definition result_bind {A B} (r : result A) (k : A -> result B) : result B :=
  match r with
  | Ok a => k a
  | Throw e => Throw e
  end.

(** [xs.map(f)] for a callback that may throw: left to right, the first
    throw abandons the whole array. *)
Fixpoint js_map {A B} (f : A -> result B) (xs : list A) : result (list B) :=
  match xs with
  | [] => Ok []
  | x :: xs' =>
      result_bind (f x) (fun y =>
      result_bind (js_map f xs') (fun ys => Ok (y :: ys)))
  end.

(** *** BigInt(v) *)

Module ToBigInt.

Definition digit_value (c : N) : option Z :=
  if is_digit c then Some (Z.of_N c - 48)
  else if ((97 <=? c) && (c <=? 102))%N then Some (Z.of_N c - 87)
  else if ((65 <=? c) && (c <=? 70))%N then Some (Z.of_N c - 55)
  else None.

(** The digits [ds] read in [radix], most significant first; [None] when
    a code unit is not a digit of that radix. *)
Fixpoint digits (radix : Z) (acc : Z) (ds : list N) : option Z :=
  match ds with
  | [] => Some acc
  | c :: ds' =>
      match digit_value c with
      | Some d => if d <? radix then digits radix (radix * acc + d) ds' else None
      | None => None
      end
  end.

Definition nonempty_digits (radix : Z) (ds : list N) : option Z :=
  match ds with
  | [] => None
  | _ => digits radix 0 ds
  end.

(** StringToBigInt: blank text is zero; otherwise a signed decimal
    literal or an unsigned [0x], [0o] or [0b] literal. *)
Definition of_string (s : list N) : option Z :=
  match trim s with
  | [] => Some 0
  | 48%N :: (120%N | 88%N) :: ds => nonempty_digits 16 ds
  | 48%N :: (111%N | 79%N) :: ds => nonempty_digits 8 ds
  | 48%N :: (98%N | 66%N) :: ds => nonempty_digits 2 ds
  | 43%N :: ds => nonempty_digits 10 ds
  | 45%N :: ds => Z.opp <$> nonempty_digits 10 ds
  | ds => nonempty_digits 10 ds
  end.

(** [Uint8Array.prototype.toString]: the elements joined by commas. *)
Fixpoint bytes_toString (bs : list N) : list N :=
  match bs with
  | [] => []
  | [b] => of_Z (Z.of_N b)
  | b :: bs' => of_Z (Z.of_N b) ++ 44%N :: bytes_toString bs'
  end.

Definition error_name (k : error_kind) : list N :=
  match k with
  | KError => js "Error"
  | KTypeError => js "TypeError"
  | KRangeError => js "RangeError"
  | KSyntaxError => js "SyntaxError"
  end.

(** [Error.prototype.toString] *)
Definition error_toString (k : error_kind) (msg : list N) : list N :=
  match msg with
  | [] => error_name k
  | _ => error_name k ++ js ": " ++ msg
  end.

Definition parse (s : list N) : result Z :=
  match of_string s with
  | Some z => Ok z
  | None => Throw (runtime_error KSyntaxError)
  end.

Definition BigInt (v : jsval) : result Z :=
  match v with
  | VUndefined | VNull => Throw (runtime_error KTypeError)
  | VBool b => Ok (if b then 1 else 0)
  | VNumber (NumInt z) => Ok z
  | VNumber _ => Throw (runtime_error KRangeError)
  | VBigInt z => Ok z
  | VString s => parse s
  | VBytes bs => parse (bytes_toString bs)
  | VError k msg => parse (error_toString k msg)
  end.

End ToBigInt.

Import ToBigInt.

(** ** The collaborators: SDK, backend instance, wallet *)

(** [event] is one call that leaves the module, with its arguments.  The
    log of events is the history a stub answers from, so a stub may behave
    differently on its second call, or after a builder was fed a value. *)

Inductive call_shape :=
| ObjectArg     (* createEncryptedInput({ contractAddress, userAddress }) *)
| Positional.   (* createEncryptedInput(contractAddress, userAddress) *)

Record ExtraData := {
  x_contractAddress : list N;
  x_userAddress : list N;
  x_chainId : jsval;
  x_kmsContractAddress : jsval;
  x_aclContractAddress : jsval;
}.

Record Keypair := { publicKey : jsval; privateKey : jsval }.

(** The object [createEIP712] returns; only these three parts are read. *)
Record EIP712 := {
  domain : jsval;
  types_UserDecryptRequestVerification : jsval;
  message : jsval;
}.

Inductive event :=
| EvInitSDK
| EvCreateInstance
| EvGenerateKeypair (on_instance : bool)
| EvEthAccounts
| EvCreateEncryptedInput (shape : call_shape) (ca ua : list N)
| EvSetExtraData (extra : ExtraData)
| EvExtraDataField (extra : ExtraData)
| EvAdd64 (v : Z)
| EvEncrypt
| EvBrowserProvider
| EvRequestAccounts
| EvGetSigner
| EvGetAddress
| EvDateNow
| EvCreateEIP712 (pk : jsval) (contracts : list (list N)) (startTs days : list N)
| EvSignTypedData (eip : EIP712)
| EvUserDecrypt (pairs : list (list N * list N)) (sk pk : jsval)
    (signature : list N) (contracts : list (list N)) (ua startTs days : list N)
| EvPublicDecrypt (handles : list (list N)).

Definition history := list event.

(** What [r.userDecrypt] and [r.publicDecrypt] resolve to: an array, a
    plain object keyed by handle, or [null]/[undefined]. *)
Inductive Response :=
| RArray (vs : list jsval)
| RObject (m : gmap (list N) jsval)
| RNullish.

Module SDK.

(** What [enc.encrypt()] resolves to.  A field that is absent is
    [None] (for the two arrays) or [VUndefined] (for the two proofs). *)
Record EncryptOutput := {
  handles : option (list jsval);
  externalValues : option (list jsval);
  inputProof : jsval;
  attestation : jsval;
}.

(** The encrypted-input builder. [setExtraData] is [None] when
    [typeof enc.setExtraData] is not ["function"]. *)
Record Builder := {
  setExtraData : option (history -> ExtraData -> result unit);
  add64 : history -> Z -> result unit;
  encrypt : history -> result (option SDK.EncryptOutput);
}.

(** The instance [createInstance] resolves to. [generateKeypair] is
    [None] when [typeof r.generateKeypair] is not ["function"]. *)
Record Instance := {
  generateKeypair : option (history -> result Keypair);
  createEncryptedInput : history -> call_shape -> list N -> list N -> result Builder;
  createEIP712 : history -> jsval -> list (list N) -> list N -> list N -> result EIP712;
  userDecrypt : history -> list (list N * list N) -> jsval -> jsval -> list N ->
                list (list N) -> list N -> list N -> list N -> result Response;
  publicDecrypt : history -> list (list N) -> result Response;
}.

(** The imported constant [SepoliaConfig], as far as it is read. *)
Record Config := {
  chainId : jsval;
  kmsContractAddress : jsval;
  aclContractAddress : jsval;
}.

End SDK.

Module Wallet.

Record Signer := {
  getAddress : history -> result (list N);
  signTypedData : history -> EIP712 -> result (list N);
}.

(** [new window.ethers.BrowserProvider(window.ethereum)] *)
Record Provider := {
  send_eth_requestAccounts : history -> result unit;
  getSigner : history -> result Signer;
}.

(** [window.ethereum]; [request] is the ["eth_accounts"] request, which
    resolves to an array of account strings or to nothing. *)
Record Ethereum := {
  request_eth_accounts : history -> result (option (list (list N)));
}.

End Wallet.

(** Everything outside the module. *)
Record World := {
  ethereum : option Wallet.Ethereum;
  ethers_getAddress : option (list N -> result (list N));
  ethers_BrowserProvider : history -> result Wallet.Provider;
  initSDK : history -> result unit;
  createInstance : history -> result SDK.Instance;
  sdkGenerateKeypair : history -> result Keypair;
  SepoliaConfig : option SDK.Config;
  Date_now : history -> Z;
}.

(** ** Module state and the monad of the async functions *)

Record state := {
  _relayer : option SDK.Instance;   (* cached singleton SDK instance *)
  _ud_kp : option Keypair;          (* cached keypair for userDecrypt *)
  log : history;
}.

Definition fresh : state := {| _relayer := None; _ud_kp := None; log := [] |}.

Definition M (A : Type) : Type := state -> result A * state.

Global Instance M_ret : MRet M := fun A a s => (Ok a, s).

Global Instance M_bind : MBind M := fun A B k m s =>
  match m s with
  | (Ok a, s') => k a s'
  | (Throw e, s') => (Throw e, s')
  end.

Global Instance M_throw : MThrow jsval M := fun A e s => (Throw e, s).

(** [try { m } catch (e) { handler e }] *)
Definition try_catch {A} (m : M A) (handler : jsval -> M A) : M A := fun s =>
  match m s with
  | (Ok a, s') => (Ok a, s')
  | (Throw e, s') => handler e s'
  end.

(** A call to a collaborator: it is logged, then answered from the
    history before it. *)
Definition call {A} (ev : event) (stub : history -> result A) : M A := fun s =>
  (stub (log s),
   {| _relayer := _relayer s; _ud_kp := _ud_kp s; log := log s ++ [ev] |}).

Definition lift {A} (r : result A) : M A := fun s => (r, s).

Definition get__relayer : M (option SDK.Instance) := fun s => (Ok (_relayer s), s).
Definition get__ud_kp : M (option Keypair) := fun s => (Ok (_ud_kp s), s).
Definition set__relayer (r : SDK.Instance) : M unit := fun s =>
  (Ok tt, {| _relayer := Some r; _ud_kp := _ud_kp s; log := log s |}).
Definition set__ud_kp (kp : Keypair) : M unit := fun s =>
  (Ok tt, {| _relayer := _relayer s; _ud_kp := Some kp; log := log s |}).

(** ** The module *)

(** What [encrypt64For] returns. *)
Record EncryptedValue := { handle : jsval; attestation : jsval }.

Section Relayer.

Context (W : World).

(** *** Relayer SDK initialization *)

(** The keypair step shared by [initRelayer] and [userDecrypt]:
    [r.generateKeypair()] when the instance has it, else the SDK's
    [generateKeypair()]; the result is stored in [_ud_kp]. *)
Definition prepare_keypair (r : SDK.Instance) : M unit :=
  match SDK.generateKeypair r with
  | Some gen => kp ← call (EvGenerateKeypair true) gen; set__ud_kp kp
  | None => kp ← call (EvGenerateKeypair false) (sdkGenerateKeypair W); set__ud_kp kp
  end.

Definition initRelayer : M SDK.Instance :=
  cached ← get__relayer;
  match cached with
  | Some r => mret r
  | None =>
      match ethereum W with
      | None => mthrow (Error (js "MetaMask not found"))
      | Some _ =>
          call EvInitSDK (initSDK W);;
          inst ← call EvCreateInstance (createInstance W);
          set__relayer inst;;
          kp ← get__ud_kp;
          (match kp with
           | None => prepare_keypair inst
           | Some _ => mret tt
           end);;
          mret inst
      end
  end.

(** *** Helpers *)

(** [a] is a string at both call sites, where [String(a ?? "")] is [a]. *)
Definition addressVariants (a : list N) : list (list N) :=
  let raw := trim (strip_u200b a) in
  let out := [] in
  let out :=
    match
      match ethers_getAddress W with
      | Some getAddress => getAddress raw
      | None => Ok raw
      end
    with
    | Ok cs => if test_address cs then out ++ [cs] else out
    | Throw _ => out
    end in
  let lc := toLowerCase raw in
  let out := if test_address_lower lc then out ++ [lc] else out in
  set_spread [] out.

Definition ensureUserAddress (userAddress : option (list N)) : M (list N) :=
  let raw := trim (default [] userAddress) in
  if negb (bool_decide (raw = [])) then mret raw
  else
    match ethereum W with
    | None => mthrow (Error (js "MetaMask not found"))
    | Some eth =>
        accs ← call EvEthAccounts (Wallet.request_eth_accounts eth);
        match accs with
        | Some (acc0 :: _) =>
            if bool_decide (acc0 = []) then mthrow (Error (js "No connected account"))
            else mret acc0
        | _ => mthrow (Error (js "No connected account"))
        end
    end.

Definition attachExtraData (enc : SDK.Builder) (ca ua : list N) : M unit :=
  let extra := {|
    x_contractAddress := ca;
    x_userAddress := ua;
    x_chainId :=
      or_else (from_option SDK.chainId VUndefined (SepoliaConfig W))
              (VString (js "0xaa36a7"));
    x_kmsContractAddress := from_option SDK.kmsContractAddress VUndefined (SepoliaConfig W);
    x_aclContractAddress := from_option SDK.aclContractAddress VUndefined (SepoliaConfig W);
  |} in
  match SDK.setExtraData enc with
  | Some set => call (EvSetExtraData extra) (fun h => set h extra)
  | None => call (EvExtraDataField extra) (fun _ => Ok tt)   (* backward-compat *)
  end.

(** [(xs)?.[0]] for a field that is an array or absent. *)
Definition first_of (xs : option (list jsval)) : jsval :=
  match xs with
  | Some (x :: _) => x
  | _ => VUndefined
  end.

Definition doEncrypt (enc : SDK.Builder) (valueBigInt : Z) : M EncryptedValue :=
  call (EvAdd64 valueBigInt) (fun h => SDK.add64 enc h valueBigInt);;
  out ← call EvEncrypt (SDK.encrypt enc);
  (* an array is truthy even when empty, so [||] keeps [handles] then *)
  let handle :=
    first_of (match out ≫= SDK.handles with
              | Some hs => Some hs
              | None => out ≫= SDK.externalValues
              end) in
  let proof :=
    or_else (from_option SDK.inputProof VUndefined out)
            (from_option SDK.attestation VUndefined out) in
  if negb (truthy handle) then mthrow (Error (js "Encrypt: missing handle"))
  else if negb (truthy proof) then mthrow (Error (js "Encrypt: missing inputProof/attestation"))
  else mret {| handle := handle; attestation := proof |}.

Definition _getSignerAndUser : M (Wallet.Provider * Wallet.Signer * list N) :=
  match ethereum W with
  | None => mthrow (Error (js "MetaMask not found"))
  | Some _ =>
      provider ← call EvBrowserProvider (ethers_BrowserProvider W);
      call EvRequestAccounts (Wallet.send_eth_requestAccounts provider);;
      signer ← call EvGetSigner (Wallet.getSigner provider);
      user ← call EvGetAddress (Wallet.getAddress signer);
      mret (provider, signer, user)
  end.

(** *** API: encrypt a 64-bit value for a contract and a user *)

(** One request shape for one address pair: build, attach, encrypt. *)
Definition attempt (r : SDK.Instance) (shape : call_shape) (ca ua : list N)
    (valueBigInt : Z) : M EncryptedValue :=
  enc ← call (EvCreateEncryptedInput shape ca ua)
             (fun h => SDK.createEncryptedInput r h shape ca ua);
  attachExtraData enc ca ua;;
  doEncrypt enc valueBigInt.

(** The body of the inner loop.  [inl v] is [return v]; [inr lastErr]
    falls through to the next address combination. *)
Definition try_pair (r : SDK.Instance) (ca ua : list N) (valueBigInt : Z)
    : M (EncryptedValue + jsval) :=
  try_catch
    (* object signature first (newer SDK builds) *)
    (v ← attempt r ObjectArg ca ua valueBigInt; mret (inl v))
    (fun e1 =>
       (* lastErr = e1; then the positional signature (older SDK builds) *)
       try_catch
         (v ← attempt r Positional ca ua valueBigInt; mret (inl v))
         (fun e2 => mret (inr e2))).

Fixpoint for_ua (r : SDK.Instance) (ca : list N) (uaList : list (list N))
    (valueBigInt : Z) (lastErr : jsval) : M (EncryptedValue + jsval) :=
  match uaList with
  | [] => mret (inr lastErr)
  | ua :: uaList' =>
      x ← try_pair r ca ua valueBigInt;
      match x with
      | inl v => mret (inl v)
      | inr lastErr' => for_ua r ca uaList' valueBigInt lastErr'
      end
  end.

Fixpoint for_ca (r : SDK.Instance) (caList uaList : list (list N))
    (valueBigInt : Z) (lastErr : jsval) : M (EncryptedValue + jsval) :=
  match caList with
  | [] => mret (inr lastErr)
  | ca :: caList' =>
      x ← for_ua r ca uaList valueBigInt lastErr;
      match x with
      | inl v => mret (inl v)
      | inr lastErr' => for_ca r caList' uaList valueBigInt lastErr'
      end
  end.

Definition encrypt64For (contractAddress : list N) (userAddress : option (list N))
    (valueBigInt : Z) : M EncryptedValue :=
  r ← initRelayer;
  uaRaw ← ensureUserAddress userAddress;
  let caList := addressVariants contractAddress in
  let uaList := addressVariants uaRaw in
  if bool_decide (caList = []) then
    mthrow (Error (js "Contract address looks invalid: " ++ contractAddress))
  else if bool_decide (uaList = []) then
    mthrow (Error (js "User address looks invalid: " ++ uaRaw))
  else
    x ← for_ca r caList uaList valueBigInt VUndefined;
    match x with
    | inl v => mret v
    | inr lastErr =>
        mthrow (or_else lastErr
                  (Error (js "Relayer encrypt failed for all address variants")))
    end.

(** *** API: decryption *)

(** [out[key]] on a response that is not an array. *)
Definition get_property (out : Response) (key : list N) : result jsval :=
  match out with
  | RObject m => Ok (default VUndefined (m !! key))
  | RArray _ => Ok VUndefined
  | RNullish => Throw (runtime_error KTypeError)
  end.

(** [String(h)] for a handle that is a string. *)
Definition String_of_handle (h : list N) : list N := h.

(** The two closing lines of [userDecrypt] and of [publicDecrypt]:
    the response as an array of BigInt, in the order of [handles]. *)
Definition normalize_response (handles : list (list N)) (out : Response)
    : result (list Z) :=
  match out with
  | RArray vs => js_map BigInt vs
  | _ =>
      js_map (fun h =>
                result_bind (get_property out h) (fun v =>
                result_bind (if nullish v then get_property out (String_of_handle h)
                             else Ok v)
                BigInt))
             handles
  end.

(** [userDecrypt] up to the answer of [r.userDecrypt]: the resolved
    contract address and the backend's response. *)
Definition userDecrypt_request (handles : list (list N))
    (userAddress : option (list N)) (contractAddress : list N) : M Response :=
  r ← initRelayer;
  ua ← ensureUserAddress userAddress;
  let ca := from_option id contractAddress (head (addressVariants contractAddress)) in
  (* keypair for the request *)
  kp0 ← get__ud_kp;
  (match kp0 with
   | None => prepare_keypair r
   | Some _ => mret tt
   end);;
  kp1 ← get__ud_kp;
  match kp1 with
  | None => mthrow (runtime_error KTypeError)
  | Some kp =>
      (* EIP-712 signature by the current account *)
      '(_, signer, _) ← _getSignerAndUser;
      now ← call EvDateNow (fun h => Ok (Date_now W h));
      let startTs := of_Z (now / 1000) in
      let days := js "7" in
      eip ← call (EvCreateEIP712 (publicKey kp) [ca] startTs days)
                 (fun h => SDK.createEIP712 r h (publicKey kp) [ca] startTs days);
      signature ← call (EvSignTypedData eip)
                       (fun h => Wallet.signTypedData signer h eip);
      let pairs := List.map (fun h => (h, ca)) handles in
      call (EvUserDecrypt pairs (privateKey kp) (publicKey kp)
              (strip_0x signature) [ca] ua startTs days)
           (fun h => SDK.userDecrypt r h pairs (privateKey kp) (publicKey kp)
                       (strip_0x signature) [ca] ua startTs days)
  end.

Definition userDecrypt (handles : list (list N)) (userAddress : option (list N))
    (contractAddress : list N) : M (list Z) :=
  out ← userDecrypt_request handles userAddress contractAddress;
  lift (normalize_response handles out).

Definition publicDecrypt (handles : list (list N)) : M (list Z) :=
  r ← initRelayer;
  out ← call (EvPublicDecrypt handles) (fun h => SDK.publicDecrypt r h handles);
  lift (normalize_response handles out).

End Relayer.

(** ** Interleaved calls of [initRelayer]

    An async call runs without interruption up to its next [await]; there
    it is suspended holding the promise it waits for, and other calls may
    run.  [resume] runs one call from where it is suspended to its next
    suspension point (or to its end). *)

Module Async.

Inductive pc :=
| Start
| AwaitInitSDK (p : result unit)
| AwaitCreateInstance (p : result SDK.Instance)
| AwaitKeypair (p : result Keypair)
| Done (r : result (option SDK.Instance)).

Section Resume.

Context (W : World).

Definition suspend {A} (await : result A -> pc) (x : result A * state) : pc * state :=
  (await x.1, x.2).

Definition resume (p : pc) (s : state) : pc * state :=
  match p with
  | Start =>
      match _relayer s with
      | Some r => (Done (Ok (Some r)), s)
      | None =>
          match ethereum W with
          | None => (Done (Throw (Error (js "MetaMask not found"))), s)
          | Some _ => suspend AwaitInitSDK (call EvInitSDK (initSDK W) s)
          end
      end
  | AwaitInitSDK (Throw e) => (Done (Throw e), s)
  | AwaitInitSDK (Ok _) =>
      suspend AwaitCreateInstance (call EvCreateInstance (createInstance W) s)
  | AwaitCreateInstance (Throw e) => (Done (Throw e), s)
  | AwaitCreateInstance (Ok inst) =>
      let s1 := (set__relayer inst s).2 in
      match _ud_kp s1 with
      | Some _ => (Done (Ok (_relayer s1)), s1)
      | None =>
          match SDK.generateKeypair inst with
          | Some gen => suspend AwaitKeypair (call (EvGenerateKeypair true) gen s1)
          | None =>
              suspend AwaitKeypair
                (call (EvGenerateKeypair false) (sdkGenerateKeypair W) s1)
          end
      end
  | AwaitKeypair (Throw e) => (Done (Throw e), s)
  | AwaitKeypair (Ok kp) =>
      let s1 := (set__ud_kp kp s).2 in
      (Done (Ok (_relayer s1)), s1)
  | Done r => (Done r, s)
  end.

(** The calls in flight, and the order in which the event loop resumes
    them (by index). *)
Fixpoint run (schedule : list nat) (calls : list pc) (s : state)
    : list pc * state :=
  match schedule with
  | [] => (calls, s)
  | i :: schedule' =>
      match calls !! i with
      | Some p =>
          let '(p', s') := resume p s in
          run schedule' (<[i := p']> calls) s'
      | None => run schedule' calls s
      end
  end.

End Resume.

Definition count_event (P : event -> bool) (s : state) : nat :=
  length (List.filter P (log s)).

Definition is_createInstance (ev : event) : bool :=
  match ev with EvCreateInstance => true | _ => false end.

Definition is_generateKeypair (ev : event) : bool :=
  match ev with EvGenerateKeypair _ => true | _ => false end.

End Async.

(** ** Vocabulary of the properties *)

(** The checksummed form of [raw], when [ethers.getAddress] is loaded and
    accepts it. *)
Definition canonical (W : World) (raw : list N) : option (list N) :=
  match ethers_getAddress W with
  | Some getAddress =>
      match getAddress raw with
      | Ok cs => Some cs
      | Throw _ => None
      end
  | None => None
  end.

(** The zero-width characters, as the specification words the cleaning:
    ZERO WIDTH SPACE (8203), ZERO WIDTH NON-JOINER (8204), ZERO WIDTH
    JOINER (8205), WORD JOINER (8288) and ZERO WIDTH NO-BREAK SPACE
    (65279).  Of these, [strip_u200b] removes the first only. *)
Definition zero_width (c : N) : bool :=
  ((c =? 8203) || (c =? 8204) || (c =? 8205) || (c =? 8288) || (c =? 65279))%N.

Definition strip_zero_width (s : list N) : list N :=
  List.filter (λ c, negb (zero_width c)) s.

(** [h] is the handle the encryption result [out] carries: the first
    element of [handles], or of [externalValues] when [handles] is
    absent. *)
Definition has_handle (out : option SDK.EncryptOutput) (h : jsval) : Prop :=
  truthy h = true ∧
  ∃ o, out = Some o ∧
    ((∃ hs, SDK.handles o = Some (h :: hs)) ∨
     (SDK.handles o = None ∧ ∃ hs, SDK.externalValues o = Some (h :: hs))).

(** [p] is the proof [out] carries: [inputProof], or [attestation] when
    there is no [inputProof]. *)
Definition has_proof (out : option SDK.EncryptOutput) (p : jsval) : Prop :=
  truthy p = true ∧
  ∃ o, out = Some o ∧
    (SDK.inputProof o = p ∨ (truthy (SDK.inputProof o) = false ∧ SDK.attestation o = p)).

(** The calls on an encrypted-input builder and the call that makes it. *)
Definition is_createEncryptedInput (ev : event) : bool :=
  match ev with
  | EvCreateEncryptedInput _ _ _ => true
  | _ => false
  end.

Definition is_builder_event (ev : event) : bool :=
  match ev with
  | EvCreateEncryptedInput _ _ _ | EvSetExtraData _ | EvExtraDataField _
  | EvAdd64 _ | EvEncrypt => true
  | _ => false
  end.

(** The candidate matrix in the order of the spec: contract candidates
    outermost, user candidates next, and for each pair the structured
    shape before the positional one. *)
Definition attempts (caList uaList : list (list N))
    : list (call_shape * list N * list N) :=
  flat_map (λ ca, flat_map (λ ua, [(ObjectArg, ca, ua); (Positional, ca, ua)]) uaList)
           caList.

Section Attempts.

Context (W : World) (r : SDK.Instance) (v : Z).

(** Every attempt of the list, made in order from state [s], throws;
    [e] is what the last one threw ([e0] when the list is empty). *)
Inductive all_throw : list (call_shape * list N * list N) →
    state → jsval → state → jsval → Prop :=
| all_throw_nil s e0 : all_throw [] s e0 s e0
| all_throw_cons shape ca ua l s e0 e1 s1 s2 e2 :
    attempt W r shape ca ua v s = (Throw e1, s1) →
    all_throw l s1 e1 s2 e2 →
    all_throw ((shape, ca, ua) :: l) s e0 s2 e2.

(** Make the attempts in order and stop at the first that returns. *)
Fixpoint first_success (l : list (call_shape * list N * list N)) (lastErr : jsval)
    : M (EncryptedValue + jsval) :=
  match l with
  | [] => mret (inr lastErr)
  | (shape, ca, ua) :: l' =>
      try_catch (x ← attempt W r shape ca ua v; mret (inl x))
                (λ e, first_success l' e)
  end.

(** The outcome [res], [s'] of going through the attempts [l] from
    state [s]: either one attempt returned [value], every attempt before
    it threw, and [s'] is the state that attempt left (so nothing after
    it was tried); or all of them threw, and what is thrown is the last
    error (or, should that be a falsy value, a generic error). *)
Definition stopped_at_first_success
    (l : list (call_shape * list N * list N)) (s : state)
    (res : result EncryptedValue) (s' : state) : Prop :=
  (∃ value failed shape ca ua later e s1,
      res = Ok value ∧
      l = failed ++ (shape, ca, ua) :: later ∧
      all_throw failed s VUndefined s1 e ∧
      attempt W r shape ca ua v s1 = (Ok value, s')) ∨
  (∃ e,
      all_throw l s VUndefined s' e ∧
      res = Throw (or_else e
              (Error (js "Relayer encrypt failed for all address variants")))).

End Attempts.

(** The contract address [userDecrypt] works with: the first normalized
    candidate, or the raw string when there is none. *)
Definition resolved (W : World) (contractAddress ca : list N) : Prop :=
  match addressVariants W contractAddress with
  | first :: _ => ca = first
  | [] => ca = contractAddress
  end.

(** The response [out] carries the decrypted value [dec h] of every
    requested handle [h]: position by position when it is an array, under
    the handle's key when it is an object. *)
Definition carries (dec : list N → Z) (handles : list (list N)) (out : Response)
    : Prop :=
  match out with
  | RArray vs => Forall2 (λ h v, BigInt v = Ok (dec h)) handles vs
  | RObject m => ∀ h, h ∈ handles → ∃ v, m !! h = Some v ∧ BigInt v = Ok (dec h)
  | RNullish => handles = []
  end.

(** Every value of the response [out] the two closing lines read is one
    [BigInt] accepts: every element of an array, the entry under every
    requested handle of an object.  ([null] and [undefined] have no
    properties: such a response is read only when no handle is
    requested.) *)
Definition convertible (handles : list (list N)) (out : Response) : Prop :=
  match out with
  | RArray vs => ∀ v, v ∈ vs → ∃ z, BigInt v = Ok z
  | RObject m => ∀ h, h ∈ handles → ∃ v z, m !! h = Some v ∧ BigInt v = Ok z
  | RNullish => handles = []
  end.

(** The entry of a non-array response under a handle, if it has one that
    is neither [null] nor [undefined]. *)
Definition entry (out : Response) (h : list N) : option jsval :=
  match out with
  | RObject m =>
      match m !! h with
      | Some v => if nullish v then None else Some v
      | None => None
      end
  | _ => None
  end.

(** No partial result: from an array every element was converted; from
    any other response every requested handle was answered from its
    entry, and a handle without entry makes the call throw. *)
Definition complete (handles : list (list N)) (out : Response)
    (res : result (list Z)) : Prop :=
  match out with
  | RArray vs => ∀ vals, res = Ok vals → Forall2 (λ v z, BigInt v = Ok z) vs vals
  | _ =>
      (∀ vals, res = Ok vals →
         Forall2 (λ h z, ∃ v, entry out h = Some v ∧ BigInt v = Ok z) handles vals) ∧
      (∀ h, h ∈ handles → entry out h = None → ∃ e, res = Throw e)
  end.

Definition u64 (z : Z) : Prop := 0 ≤ z < 2 ^ 64.

(** ** Test doubles *)

Module Stub.

Definition contract : list N := js "0xABCDEF1234567890ABCDEF1234567890ABCDEF12".
Definition contract_lc : list N := js "0xabcdef1234567890abcdef1234567890abcdef12".
Definition account : list N := js "0x1111111111111111111111111111111111111111".
Definition handleA : list N := js "0xhandleA".
Definition handleB : list N := js "0xhandleB".

(** A stand-in for [ethers.getAddress]: it accepts what the address
    pattern accepts and answers with the hex letters in capitals. *)
Definition getAddress (s : list N) : result (list N) :=
  if test_address s then
    Ok (48%N :: 120%N ::
        List.map (λ c, if ((97 <=? c) && (c <=? 102))%N then (c - 32)%N else c)
                 (drop 2 s))
  else Throw (Error (js "invalid address")).

Definition keypair : Keypair :=
  {| publicKey := VString (js "pk"); privateKey := VString (js "sk") |}.

Definition output : SDK.EncryptOutput :=
  {| SDK.handles := Some [VBytes [1; 2]%N]; SDK.externalValues := None;
     SDK.inputProof := VBytes [3]%N; SDK.attestation := VUndefined |}.

Definition builder (encrypted : result (option SDK.EncryptOutput)) : SDK.Builder :=
  {| SDK.setExtraData := Some (λ _ _, Ok ());
     SDK.add64 := λ _ _, Ok ();
     SDK.encrypt := λ _, encrypted |}.

Definition eip712 : EIP712 :=
  {| domain := VString (js "domain");
     types_UserDecryptRequestVerification := VString (js "types");
     message := VString (js "message") |}.

Definition instance
    (create : call_shape → list N → list N → result SDK.Builder)
    (userResponse publicResponse : Response) : SDK.Instance :=
  {| SDK.generateKeypair := Some (λ _, Ok keypair);
     SDK.createEncryptedInput := λ _, create;
     SDK.createEIP712 := λ _ _ _ _ _, Ok eip712;
     SDK.userDecrypt := λ _ _ _ _ _ _ _ _ _, Ok userResponse;
     SDK.publicDecrypt := λ _ _, Ok publicResponse |}.

Definition signer : Wallet.Signer :=
  {| Wallet.getAddress := λ _, Ok account;
     Wallet.signTypedData := λ _ _, Ok (js "0xsigned") |}.

Definition provider : Wallet.Provider :=
  {| Wallet.send_eth_requestAccounts := λ _, Ok ();
     Wallet.getSigner := λ _, Ok signer |}.

Definition world (accounts : option (list (list N)))
    (create_instance : history → result SDK.Instance) : World :=
  {| ethereum := Some {| Wallet.request_eth_accounts := λ _, Ok accounts |};
     ethers_getAddress := Some getAddress;
     ethers_BrowserProvider := λ _, Ok provider;
     initSDK := λ _, Ok ();
     createInstance := create_instance;
     sdkGenerateKeypair := λ _, Ok keypair;
     SepoliaConfig := None;
     Date_now := λ _, 1700000000500 |}.

(** A backend that builds and encrypts whatever it is asked. *)
Definition accepting : SDK.Instance :=
  instance (λ _ _ _, Ok (builder (Ok (Some output))))
           (RArray [VNumber (NumInt 7); VString (js "9")])
           (RObject {[ handleA := VNumber (NumInt 7); handleB := VNumber (NumInt 9) ]}).

Definition plain : World := world (Some [account]) (λ _, Ok accepting).

(** Only the positional shape, and only for the lowercase contract
    address, is accepted. *)
Definition lowercase_backend : SDK.Instance :=
  instance
    (λ shape ca _,
       match shape with
       | Positional =>
           if bool_decide (ca = contract_lc) then Ok (builder (Ok (Some output)))
           else Throw (Error (js "unknown contract"))
       | ObjectArg => Throw (Error (js "object signature not supported"))
       end)
    RNullish RNullish.

Definition lowercase_positional_only : World :=
  world (Some [account]) (λ _, Ok lowercase_backend).

(** The structured call builds an input whose encryption is rejected;
    the positional call works. *)
Definition rejecting_backend : SDK.Instance :=
  instance
    (λ shape _ _,
       match shape with
       | ObjectArg => Ok (builder (Throw (Error (js "relayer rejected the input"))))
       | Positional => Ok (builder (Ok (Some output)))
       end)
    RNullish RNullish.

Definition structured_encrypt_rejects : World :=
  world (Some [account]) (λ _, Ok rejecting_backend).

(** Every construction throws, each with an error that names its
    shape and contract address. *)
Definition refusing_backend : SDK.Instance :=
  instance
    (λ shape ca _,
       Throw (Error (match shape with
                     | ObjectArg => js "object " ++ ca
                     | Positional => js "positional " ++ ca
                     end)))
    RNullish RNullish.

Definition refusing : World := world (Some [account]) (λ _, Ok refusing_backend).

(** A wallet without a connected account. *)
Definition no_account : World := world (Some []) (λ _, Ok accepting).

(** The public-decrypt answer is an array with one element only. *)
Definition short_array_backend : SDK.Instance :=
  instance (λ _ _ _, Ok (builder (Ok (Some output))))
           (RArray [VNumber (NumInt 7)]) (RArray [VNumber (NumInt 7)]).

Definition short_array : World :=
  world (Some [account]) (λ _, Ok short_array_backend).

(** The public-decrypt answer is an object without entry for
    [handleB]. *)
Definition missing_entry_backend : SDK.Instance :=
  instance (λ _ _ _, Ok (builder (Ok (Some output))))
           RNullish (RObject {[ handleA := VNumber (NumInt 7) ]}).

Definition missing_entry : World :=
  world (Some [account]) (λ _, Ok missing_entry_backend).

(** Every [createInstance] resolves to a new instance; the number in
    its public-decrypt answer tells which one it is. *)
Definition numbered_backend (n : Z) : SDK.Instance :=
  instance (λ _ _ _, Ok (builder (Ok (Some output))))
           RNullish (RArray [VNumber (NumInt n)]).

Definition numbered : World :=
  world (Some [account]) (λ h,
    Ok (numbered_backend
          (Z.of_nat (length (List.filter Async.is_createInstance h))))).

(** The first [createInstance] is rejected, later ones succeed. *)
Definition flaky_connect : World :=
  world (Some [account]) (λ h,
    if existsb Async.is_createInstance h then Ok accepting
    else Throw (Error (js "relayer unreachable"))).

End Stub.

(** The state changes of the steps of [initRelayer] that follow
    [initSDK()], [createInstance()] and [generateKeypair()], when every
    collaborator answers as in [Stub.plain]. *)
Definition logged (ev : event) (s : state) : state :=
  {| _relayer := _relayer s; _ud_kp := _ud_kp s; log := log s ++ [ev] |}.

Definition connected (s : state) : state :=
  {| _relayer := Some Stub.accepting; _ud_kp := _ud_kp s;
     log := log s ++ [EvGenerateKeypair true] |}.

Definition keyed (s : state) : state :=
  {| _relayer := _relayer s; _ud_kp := Some Stub.keypair; log := log s |}.

(** ** Vocabulary of the protocol properties *)

(** The cleaning [addressVariants] applies to its argument. *)
Definition clean (a : list N) : list N := trim (strip_u200b a).

(** Kinds of outside calls. *)
Definition is_connect_event (ev : event) : bool :=
  match ev with
  | EvInitSDK | EvCreateInstance => true
  | _ => false
  end.

Definition is_session_event (ev : event) : bool :=
  match ev with
  | EvInitSDK | EvCreateInstance | EvGenerateKeypair _ => true
  | _ => false
  end.

Definition is_account_query (ev : event) : bool :=
  match ev with
  | EvEthAccounts => true
  | _ => false
  end.

(** The calls that reach the wallet. *)
Definition is_wallet_event (ev : event) : bool :=
  match ev with
  | EvEthAccounts | EvBrowserProvider | EvRequestAccounts | EvGetSigner
  | EvGetAddress | EvSignTypedData _ => true
  | _ => false
  end.

(** The calls that set up the signer. *)
Definition is_signer_setup (ev : event) : bool :=
  match ev with
  | EvBrowserProvider | EvRequestAccounts | EvGetSigner | EvGetAddress => true
  | _ => false
  end.

(** The wallet calls that open a prompt: the permission request and the
    signature request. *)
Definition is_prompt_event (ev : event) : bool :=
  match ev with
  | EvRequestAccounts | EvSignTypedData _ => true
  | _ => false
  end.

Definition is_decrypt_event (ev : event) : bool :=
  match ev with
  | EvCreateEIP712 _ _ _ _ | EvUserDecrypt _ _ _ _ _ _ _ _ | EvPublicDecrypt _ => true
  | _ => false
  end.

(** The calls [encrypt64For] may make for the candidates [caList] and
    [uaList] and the value [v]: on a builder, only for a candidate pair
    and with that value. *)
Definition encrypt_event_for (caList uaList : list (list N)) (v : Z) (ev : event)
    : bool :=
  match ev with
  | EvCreateEncryptedInput _ ca ua =>
      bool_decide (ca ∈ caList) && bool_decide (ua ∈ uaList)
  | EvSetExtraData extra | EvExtraDataField extra =>
      bool_decide (x_contractAddress extra ∈ caList)
      && bool_decide (x_userAddress extra ∈ uaList)
      && truthy (x_chainId extra)
  | EvAdd64 x => bool_decide (x = v)
  | EvEncrypt => true
  | _ => false
  end.

(** The two module variables of a state. *)
Definition cache (s : state) : option SDK.Instance * option Keypair :=
  (_relayer s, _ud_kp s).

(** A specification of a computation in terms of the cache and of the
    calls it makes: started with a cache that satisfies [pre], [m] only
    adds calls that satisfy [P] to the log, and leaves a cache that
    satisfies [post] (whether it returns or throws). *)
Definition triple {A} (pre : option SDK.Instance * option Keypair → Prop)
    (P : event → bool) (m : M A)
    (post : option SDK.Instance * option Keypair → Prop) : Prop :=
  ∀ s, pre (cache s) →
    post (cache (m s).2) ∧
    ∃ evs, log (m s).2 = log s ++ evs ∧ forallb P evs = true.

(** [m] leaves the cache as it is and only makes calls that satisfy [P]. *)
Definition steady {A} (P : event → bool) (m : M A) : Prop :=
  ∀ c, triple (λ c', c' = c) P m (λ c', c' = c).

(** The calls a run of [m] from [s] added to the log. *)
Definition new_events {A} (m : M A) (s : state) : list event :=
  drop (length (log s)) (log (m s).2).

(** The run of [m] from [s] leaves a cache that satisfies [inv], and
    the calls it added to the log all satisfy [P]. *)
Definition run_keeps {A} (inv : option SDK.Instance * option Keypair → Prop)
    (P : event → bool) (m : M A) (s : state) : Prop :=
  inv (cache (m s).2) ∧
  log (m s).2 = log s ++ new_events m s ∧
  forallb P (new_events m s) = true.

(** The decrypt requests for other handles than [handles]: none of them
    is ever made by [publicDecrypt handles]. *)
Definition is_public_request (handles : list (list N)) (ev : event) : bool :=
  match ev with
  | EvPublicDecrypt hs => bool_decide (hs = handles)
  | _ => false
  end.
(** The calls that come before the signed request of [userDecrypt]. *)
Definition is_setup_event (ev : event) : bool :=
  is_session_event ev || is_account_query ev || is_signer_setup ev.

(** The four closing calls of [userDecrypt], for the contract address
    [ca], the user address [ua], the keypair [kp], the start time
    [startTs], the typed data [eip] and the signature [sig]. *)
Definition request_calls (handles : list (list N)) (ca ua : list N) (kp : Keypair)
    (startTs : list N) (eip : EIP712) (sig : list N) : list event :=
  [EvDateNow;
   EvCreateEIP712 (publicKey kp) [ca] startTs (js "7");
   EvSignTypedData eip;
   EvUserDecrypt (List.map (λ h, (h, ca)) handles) (privateKey kp) (publicKey kp)
     (strip_0x sig) [ca] ua startTs (js "7")].

(** Every run of [m] makes calls that satisfy [P], followed by calls
    that form a list in [Q]. *)
Definition ordered {A} (P : event → bool) (Q : list event → Prop) (m : M A) : Prop :=
  ∀ s, ∃ setup tail,
    log (m s).2 = log s ++ setup ++ tail ∧ forallb P setup = true ∧ Q tail.

(** The response [out] gives the decrypted value [dec h] of every
    requested handle as a decimal string. *)
Definition decimal (dec : list N → Z) (handles : list (list N)) (out : Response)
    : Prop :=
  match out with
  | RArray vs => vs = List.map (λ h, VString (of_Z (dec h))) handles
  | RObject m => ∀ h, h ∈ handles → m !! h = Some (VString (of_Z (dec h)))
  | RNullish => False
  end.

(** The keypair generator [initRelayer] and [userDecrypt] turn to: the
    instance's own when it has one, else the SDK's. *)
Definition keypair_generator (W : World) (r : SDK.Instance) : history → result Keypair :=
  match SDK.generateKeypair r with
  | Some gen => gen
  | None => sdkGenerateKeypair W
  end.

(** ** Further test doubles *)

(** A backend whose keypair generator fails at its first call only. *)
Definition flaky_keygen_backend : SDK.Instance :=
  {| SDK.generateKeypair :=
       Some (λ h, if existsb Async.is_generateKeypair h then Ok Stub.keypair
                  else Throw (Error (js "no entropy")));
     SDK.createEncryptedInput := SDK.createEncryptedInput Stub.accepting;
     SDK.createEIP712 := SDK.createEIP712 Stub.accepting;
     SDK.userDecrypt := SDK.userDecrypt Stub.accepting;
     SDK.publicDecrypt := SDK.publicDecrypt Stub.accepting |}.

Definition flaky_keygen : World :=
  Stub.world (Some [Stub.account]) (λ _, Ok flaky_keygen_backend).

(** A backend whose constructions are rejected without a reason. *)
Definition silent_backend : SDK.Instance :=
  Stub.instance (λ _ _ _, Throw VUndefined) RNullish RNullish.

Definition silent : World := Stub.world (Some [Stub.account]) (λ _, Ok silent_backend).

(** Every construction throws: the structured one an error that names
    the contract address, the positional one the value [thrown]. *)
Definition throwing_backend (thrown : jsval) : SDK.Instance :=
  Stub.instance
    (λ shape ca _,
       Throw (match shape with
              | ObjectArg => Error (js "object " ++ ca)
              | Positional => thrown
              end))
    RNullish RNullish.

Definition throwing (thrown : jsval) : World :=
  Stub.world (Some [Stub.account]) (λ _, Ok (throwing_backend thrown)).

(** A backend that answers the user request for two handles with an
    array of three values, and the public request with an object whose
    values do not fit 64 bits. *)
Definition unchecked_backend : SDK.Instance :=
  Stub.instance (λ _ _ _, Ok (Stub.builder (Ok (Some Stub.output))))
    (RArray [VBigInt (2 ^ 64); VNumber (NumInt 7); VNumber (NumInt 9)])
    (RObject {[ Stub.handleA := VString (js "-1");
                Stub.handleB := VBigInt (2 ^ 64) ]}).

Definition unchecked : World :=
  Stub.world (Some [Stub.account]) (λ _, Ok unchecked_backend).

(** A page whose [ethers.getAddress] answers without the [0x] prefix. *)
Definition unprefixed_ethers : World :=
  {| ethereum := ethereum Stub.plain;
     ethers_getAddress := Some (λ s, Ok (drop 2 s));
     ethers_BrowserProvider := ethers_BrowserProvider Stub.plain;
     initSDK := initSDK Stub.plain;
     createInstance := createInstance Stub.plain;
     sdkGenerateKeypair := sdkGenerateKeypair Stub.plain;
     SepoliaConfig := SepoliaConfig Stub.plain;
     Date_now := Date_now Stub.plain |}.

(** A page without wallet. *)
Definition no_wallet : World :=
  {| ethereum := None;
     ethers_getAddress := ethers_getAddress Stub.plain;
     ethers_BrowserProvider := ethers_BrowserProvider Stub.plain;
     initSDK := initSDK Stub.plain;
     createInstance := createInstance Stub.plain;
     sdkGenerateKeypair := sdkGenerateKeypair Stub.plain;
     SepoliaConfig := SepoliaConfig Stub.plain;
     Date_now := Date_now Stub.plain |}.

(** * Properties *)

Ltac run_monad :=
  unfold mbind, M_bind, mret, M_ret, mthrow, M_throw, call, lift, try_catch,
    get__relayer, get__ud_kp, set__relayer, set__ud_kp in *; simpl in *.

(** ** The JavaScript primitives on examples *)

Example trim_blanks : trim (js "  0xab ") = js "0xab".
Proof. reflexivity. Qed.

Example BigInt_decimal : BigInt (VString (js " 42 ")) = Ok 42.
Proof. reflexivity. Qed.

Example BigInt_hex : BigInt (VString (js "0xff")) = Ok 255.
Proof. reflexivity. Qed.

Example BigInt_signed_hex : BigInt (VString (js "-0x1")) = Throw (runtime_error KSyntaxError).
Proof. reflexivity. Qed.

Example BigInt_undefined : BigInt VUndefined = Throw (runtime_error KTypeError).
Proof. reflexivity. Qed.

Example BigInt_fraction : BigInt (VNumber NumOther) = Throw (runtime_error KRangeError).
Proof. reflexivity. Qed.

(** ** Address normalizer *)

Lemma is_hex_lower_is_hex c : is_hex_lower c = true → is_hex c = true.
Proof. unfold is_hex. intros ->. reflexivity. Qed.

Lemma test_address_lower_address s :
  test_address_lower s = true → test_address s = true.
Proof.
  unfold test_address_lower, test_address.
  destruct s as [|c0 [|c1 ds]]; try done.
  repeat (case_match; try done).
  rewrite !andb_true_iff, !forallb_forall.
  intros [? Hds]; split; [done|]. intros x Hx. apply is_hex_lower_is_hex; auto.
Qed.

Lemma set_spread_elem seen xs x :
  x ∈ set_spread seen xs ↔ x ∈ xs ∧ x ∉ seen.
Proof.
  revert seen. induction xs as [|y xs IH]; intros seen; simpl.
  - split; [intros H%not_elem_of_nil; done | intros [H%not_elem_of_nil _]; done].
  - case_bool_decide as Hy.
    + rewrite IH, elem_of_cons. split; [intuition|].
      intros [[->|?] ?]; [done|auto].
    + rewrite !elem_of_cons, IH, not_elem_of_cons. split.
      * intros [->|(? & ? & ?)]; auto.
      * intros [[->|?] ?]; [auto|].
        destruct (decide (x = y)) as [->|]; auto.
Qed.

Lemma set_spread_NoDup seen xs : NoDup (set_spread seen xs).
Proof.
  revert seen. induction xs as [|y xs IH]; intros seen; simpl.
  - constructor.
  - case_bool_decide; [apply IH|].
    constructor; [|apply IH].
    rewrite set_spread_elem, not_elem_of_cons. intros [_ [? _]]. done.
Qed.

Lemma set_spread_one x : set_spread [] [x] = [x].
Proof. reflexivity. Qed.

Lemma set_spread_same x : set_spread [] [x; x] = [x].
Proof.
  cbn [set_spread]. repeat case_bool_decide; try done;
    exfalso; rewrite ?list_elem_of_singleton in *;
    try done; eapply not_elem_of_nil; eauto.
Qed.

Lemma set_spread_two x y : x ≠ y → set_spread [] [x; y] = [x; y].
Proof.
  intros Hne. cbn [set_spread]. repeat case_bool_decide; try done;
    exfalso; rewrite ?list_elem_of_singleton in *;
    try done; try congruence; eapply not_elem_of_nil; eauto.
Qed.

Section AddressVariants.

Context (W : World).

Lemma addressVariants_shape a :
  let raw := trim (strip_u200b a) in
  let lc := toLowerCase raw in
  test_address_lower lc = true →
  ∃ first,
    addressVariants W a = set_spread [] (first ++ [lc]) ∧
    (first = [] ∨ ∃ cs, first = [cs] ∧ test_address cs = true) ∧
    (∀ cs, canonical W raw = Some cs → test_address cs = true → first = [cs]).
Proof.
  intros raw lc Hlc. unfold addressVariants, canonical. fold raw. fold lc.
  rewrite Hlc.
  destruct (ethers_getAddress W) as [g|].
  - destruct (g raw) as [cs|e].
    + destruct (test_address cs) eqn:Hcs.
      * exists [cs]. split_and!; [done|right; eauto|intros ? [= <-]; done].
      * exists []. split_and!; [done|left; done|intros ? [= <-]; congruence].
    + exists []. split_and!; [done|by left|done].
  - destruct (test_address raw) eqn:Hraw.
    + exists [raw]. split_and!; [done|right; eauto|done].
    + exists []. split_and!; [done|by left|done].
Qed.

(** With [ethers.getAddress] loaded, an input it rejects, or for which
    it answers with a string that fails the address pattern, has the
    lowercase form as its only candidate. *)
Lemma addressVariants_lowercase_only a :
  let raw := trim (strip_u200b a) in
  let lc := toLowerCase raw in
  test_address_lower lc = true →
  is_Some (ethers_getAddress W) →
  (∀ cs, canonical W raw = Some cs → test_address cs = false) →
  addressVariants W a = [lc].
Proof.
  intros raw lc Hlc [g Hg] Hbad. unfold addressVariants, canonical in *.
  fold raw in Hbad |- *. fold lc. rewrite Hlc. rewrite Hg in Hbad |- *.
  destruct (g raw) as [cs|e]; [|done].
  by rewrite (Hbad cs eq_refl).
Qed.

(** C5, as the code has it.  When the cleaned input (every ZERO WIDTH
    SPACE dropped, no other zero-width character, then trimmed)
    lower-cases to a string that matches [^0x[0-9a-f]{40}$],
    [addressVariants] returns one or two candidates without duplicates;
    the lowercase form is among them; every candidate matches the address
    pattern; the form [ethers.getAddress] answers with is among them
    whenever it answers with one that matches the pattern, and comes first
    when it differs from the lowercase form; when it throws, or answers
    with a string that fails the pattern, the lowercase form is the only
    candidate. *)
Theorem addressVariants_candidates (a : list N) :
  let raw := trim (strip_u200b a) in
  let lc := toLowerCase raw in
  test_address_lower lc = true →
  let out := addressVariants W a in
  NoDup out ∧ (length out = 1 ∨ length out = 2)%nat ∧ lc ∈ out ∧
  Forall (λ c, test_address c = true) out ∧
  (∀ cs, canonical W raw = Some cs → test_address cs = true →
         cs ∈ out ∧ (cs ≠ lc → out = [cs; lc])) ∧
  (is_Some (ethers_getAddress W) →
   (∀ cs, canonical W raw = Some cs → test_address cs = false) →
   out = [lc]).
Proof.
  intros raw lc Hlc out.
  destruct (addressVariants_shape a Hlc) as (first & Hout & Hfirst & Hcanon).
  fold raw lc in Hout, Hcanon.
  assert (Honly : is_Some (ethers_getAddress W) →
                  (∀ cs, canonical W raw = Some cs → test_address cs = false) →
                  out = [lc])
    by (intros He Hbad; by apply addressVariants_lowercase_only).
  subst out. rewrite Hout in Honly |- *.
  pose proof (test_address_lower_address _ Hlc) as Hlc'.
  split; [apply set_spread_NoDup|].
  destruct Hfirst as [->|(cs & -> & Hcs')]; simpl app in *.
  - rewrite set_spread_one in *.
    split_and!; [by left|by apply list_elem_of_singleton|by repeat constructor| |done].
    intros cs Hc Hcs. by specialize (Hcanon _ Hc Hcs).
  - destruct (decide (cs = lc)) as [->|Hne].
    + rewrite set_spread_same in *.
      split_and!; [by left|by apply list_elem_of_singleton|by repeat constructor| |done].
      intros cs Hc Hcs. specialize (Hcanon _ Hc Hcs) as [= <-].
      split; [by apply list_elem_of_singleton|done].
    + rewrite set_spread_two in * by done.
      split_and!; [by right|set_solver|by repeat constructor| |done].
      intros cs0 Hc Hcs0. specialize (Hcanon _ Hc Hcs0) as [= <-].
      split; [set_solver|done].
Qed.

End AddressVariants.

(** The input of the spec's scenario, padded with a blank, a ZERO WIDTH
    SPACE and a line feed. *)
Lemma addressVariants_candidates_witness :
  let a := 32%N :: Stub.contract ++ [8203%N; 10%N] in
  test_address_lower (toLowerCase (trim (strip_u200b a))) = true ∧
  addressVariants Stub.plain a = [Stub.contract; Stub.contract_lc].
Proof.
  intros a. split; [reflexivity|].
  destruct (addressVariants_candidates Stub.plain a eq_refl)
    as (_ & _ & _ & _ & Hfirst & _).
  destruct (Hfirst Stub.contract eq_refl eq_refl) as [_ Hout].
  apply Hout. discriminate.
Defined.

(** A ZERO WIDTH NON-JOINER after a valid address: without its zero-width
    characters and the surrounding blanks the input is a valid address,
    and still it has no candidate.  And when [ethers.getAddress] answers
    with a string that fails the address pattern, its answer is not a
    candidate. *)
Lemma addressVariants_candidates_counterexample :
  let a := 32%N :: Stub.contract ++ [8204%N] in
  test_address_lower (toLowerCase (trim (strip_zero_width a))) = true ∧
  addressVariants Stub.plain a = [] ∧
  canonical unprefixed_ethers (trim (strip_u200b Stub.contract))
  = Some (drop 2 Stub.contract) ∧
  addressVariants unprefixed_ethers Stub.contract = [Stub.contract_lc].
Proof. split_and!; vm_compute; reflexivity. Qed.

(** ** Encryption result *)

(** C7.  An encryption result without a handle makes [doEncrypt] throw
    "Encrypt: missing handle"; one with a handle but without a proof makes
    it throw the different error "Encrypt: missing inputProof/attestation";
    and every value [doEncrypt] returns holds a handle and a proof of the
    result, both present. *)
Theorem doEncrypt_checks_result (enc : SDK.Builder) (v : Z) (s : state) :
  (∀ ev s', doEncrypt enc v s = (Ok ev, s') →
     truthy (handle ev) = true ∧ truthy (attestation ev) = true) ∧
  (∀ out,
     SDK.add64 enc (log s) v = Ok () →
     SDK.encrypt enc (log s ++ [EvAdd64 v]) = Ok out →
     ((¬ ∃ h, has_handle out h) →
        (doEncrypt enc v s).1 = Throw (Error (js "Encrypt: missing handle"))) ∧
     ((∃ h, has_handle out h) → (¬ ∃ p, has_proof out p) →
        (doEncrypt enc v s).1
        = Throw (Error (js "Encrypt: missing inputProof/attestation"))) ∧
     (∀ ev, (doEncrypt enc v s).1 = Ok ev →
        has_handle out (handle ev) ∧ has_proof out (attestation ev))) ∧
  Error (js "Encrypt: missing handle")
  ≠ Error (js "Encrypt: missing inputProof/attestation").
Proof.
  split_and!.
  - intros ev s'. unfold doEncrypt. run_monad.
    destruct (SDK.add64 enc (log s) v); [|done].
    destruct (SDK.encrypt enc _) as [out|]; [|done].
    destruct (truthy (first_of _)) eqn:Hh; [|done]. simpl.
    destruct (truthy (or_else _ _)) eqn:Hp; [|done]. simpl.
    by intros [= <- <-].
  - intros out Hadd Henc. unfold doEncrypt. run_monad.
    rewrite Hadd, Henc.
    split_and!.
    + intros Hno.
      destruct (truthy (first_of _)) eqn:Hh; [|done]. exfalso. apply Hno.
      destruct out as [o|]; [|done]. simpl in Hh.
      destruct (SDK.handles o) as [[|h hs]|] eqn:Hhs; simpl in Hh; try done.
      * exists h. split; [done|]. exists o. split; [done|]. left. eauto.
      * destruct (SDK.externalValues o) as [[|h hs]|] eqn:Hxs; simpl in Hh; try done.
        exists h. split; [done|]. exists o. split; [done|]. right. eauto.
    + intros [h (Hh & o & -> & Hsrc)] Hno. simpl.
      assert (first_of match SDK.handles o with Some hs => Some hs | None => SDK.externalValues o end = h) as ->.
      { destruct Hsrc as [[hs ->]|[-> [hs ->]]]; done. }
      rewrite Hh. simpl.
      destruct (truthy (or_else _ _)) eqn:Hp; [|done]. exfalso. apply Hno.
      unfold or_else in Hp. destruct (truthy (SDK.inputProof o)) eqn:Hip.
      * exists (SDK.inputProof o). split; [done|]. exists o. eauto.
      * exists (SDK.attestation o). split; [done|]. exists o. eauto.
    + intros ev.
      destruct (truthy (first_of _)) eqn:Hh; [|done]. simpl.
      destruct (truthy (or_else _ _)) eqn:Hp; [|done]. simpl.
      intros [= <-]. simpl.
      destruct out as [o|]; [|done]. simpl in *. split.
      * split; [done|]. exists o. split; [done|].
        destruct (SDK.handles o) as [[|h hs]|] eqn:Hhs; simpl in *; try done; eauto.
        destruct (SDK.externalValues o) as [[|h hs]|] eqn:Hxs; simpl in *; try done; eauto.
      * split; [done|]. exists o. split; [done|].
        unfold or_else in *. destruct (truthy (SDK.inputProof o)) eqn:Hip; eauto.
  - discriminate.
Qed.

(** A complete result, an absent one, and one with a handle in the
    legacy field but no proof. *)
Lemma doEncrypt_checks_result_witness :
  (doEncrypt (Stub.builder (Ok (Some Stub.output))) 500 fresh).1
  = Ok {| handle := VBytes [1; 2]%N; attestation := VBytes [3]%N |} ∧
  (doEncrypt (Stub.builder (Ok None)) 500 fresh).1
  = Throw (Error (js "Encrypt: missing handle")) ∧
  (doEncrypt (Stub.builder (Ok (Some
     {| SDK.handles := None; SDK.externalValues := Some [VString (js "0xh")];
        SDK.inputProof := VUndefined; SDK.attestation := VString [] |}))) 500 fresh).1
  = Throw (Error (js "Encrypt: missing inputProof/attestation")).
Proof.
  split_and!.
  - destruct (doEncrypt_checks_result (Stub.builder (Ok (Some Stub.output))) 500 fresh)
      as (_ & H & _).
    destruct (H (Some Stub.output) eq_refl eq_refl) as (_ & _ & Hok).
    reflexivity.
  - destruct (doEncrypt_checks_result (Stub.builder (Ok None)) 500 fresh)
      as (_ & H & _).
    destruct (H None eq_refl eq_refl) as (Hmissing & _).
    apply Hmissing. intros (h & _ & o & Ho & _). discriminate.
  - set (out := {| SDK.handles := None; SDK.externalValues := Some [VString (js "0xh")];
                   SDK.inputProof := VUndefined; SDK.attestation := VString [] |}).
    destruct (doEncrypt_checks_result (Stub.builder (Ok (Some out))) 500 fresh)
      as (_ & H & _).
    destruct (H (Some out) eq_refl eq_refl) as (_ & Hproof & _).
    apply Hproof.
    + exists (VString (js "0xh")). split; [reflexivity|].
      exists out. split; [reflexivity|]. right. split; [reflexivity|]. by eexists.
    + intros (p & Hp & o & [= <-] & [Hip | [_ Hat]]); simpl in *; subst p; discriminate.
Defined.

(** ** Session *)

Section Session.

Context (W : World).

Lemma initRelayer_cached s r :
  _relayer s = Some r → initRelayer W s = (Ok r, s).
Proof. intros H. unfold initRelayer. run_monad. by rewrite H. Qed.

Lemma prepare_keypair_outcome r s :
  ∃ b, log (prepare_keypair W r s).2 = log s ++ [EvGenerateKeypair b] ∧
       _relayer (prepare_keypair W r s).2 = _relayer s ∧
       match (prepare_keypair W r s).1 with
       | Ok _ => is_Some (_ud_kp (prepare_keypair W r s).2)
       | Throw _ => _ud_kp (prepare_keypair W r s).2 = _ud_kp s
       end.
Proof.
  unfold prepare_keypair.
  destruct (SDK.generateKeypair r) as [gen|]; run_monad.
  - exists true. destruct (gen (log s)); simpl; eauto.
  - exists false. destruct (sdkGenerateKeypair W (log s)); simpl; eauto.
Qed.

(** What a call of [initRelayer] that finds no cached instance does. *)
Lemma initRelayer_uncached s :
  _relayer s = None →
  initRelayer W s =
  match ethereum W with
  | None => (Throw (Error (js "MetaMask not found")), s)
  | Some _ =>
      let s1 := {| _relayer := None; _ud_kp := _ud_kp s;
                   log := log s ++ [EvInitSDK] |} in
      match initSDK W (log s) with
      | Throw e => (Throw e, s1)
      | Ok _ =>
          let s2 := {| _relayer := None; _ud_kp := _ud_kp s;
                       log := (log s ++ [EvInitSDK]) ++ [EvCreateInstance] |} in
          match createInstance W (log s ++ [EvInitSDK]) with
          | Throw e => (Throw e, s2)
          | Ok inst =>
              let s3 := {| _relayer := Some inst; _ud_kp := _ud_kp s;
                           log := log s2 |} in
              match _ud_kp s with
              | Some _ => (Ok inst, s3)
              | None =>
                  match prepare_keypair W inst s3 with
                  | (Ok _, s4) => (Ok inst, s4)
                  | (Throw e, s4) => (Throw e, s4)
                  end
              end
          end
      end
  end.
Proof.
  intros H. unfold initRelayer. run_monad. rewrite H.
  destruct (ethereum W); [|done].
  destruct (initSDK W (log s)); rewrite ?H; [|done].
  destruct (createInstance W (log s ++ [EvInitSDK])); rewrite ?H; [|done].
  destruct (_ud_kp s); [done|].
  by destruct (prepare_keypair W _ _) as [[[]|] ?].
Qed.

(** [initRelayer] makes no call on an encrypted-input builder, and what
    it returns is the cached instance. *)
Lemma initRelayer_log s :
  ∃ evs, log (initRelayer W s).2 = log s ++ evs ∧
         Forall (λ ev, is_builder_event ev = false) evs.
Proof.
  destruct (_relayer s) as [r|] eqn:Hr.
  - rewrite (initRelayer_cached _ _ Hr). exists []. by rewrite app_nil_r.
  - rewrite (initRelayer_uncached _ Hr).
    destruct (ethereum W); [|exists []; by rewrite app_nil_r].
    destruct (initSDK W (log s)); [|exists [EvInitSDK]; by repeat constructor].
    destruct (createInstance W (log s ++ [EvInitSDK])) as [inst|]; simpl;
      [|exists [EvInitSDK; EvCreateInstance]; rewrite <- app_assoc; by repeat constructor].
    destruct (_ud_kp s);
      [exists [EvInitSDK; EvCreateInstance]; rewrite <- app_assoc; by repeat constructor|].
    match goal with |- context [prepare_keypair W inst ?s3] =>
      destruct (prepare_keypair_outcome inst s3) as (b & Hlog & _);
      destruct (prepare_keypair W inst s3) as [[[]|] s4] end;
      simpl in *; exists [EvInitSDK; EvCreateInstance; EvGenerateKeypair b];
      rewrite Hlog, <- !app_assoc; by repeat constructor.
Qed.

Lemma initRelayer_returns_cached s r s' :
  initRelayer W s = (Ok r, s') → _relayer s' = Some r.
Proof.
  destruct (_relayer s) as [r0|] eqn:Hr.
  - rewrite (initRelayer_cached _ _ Hr). by intros [= <- <-].
  - rewrite (initRelayer_uncached _ Hr).
    destruct (ethereum W); [|done].
    destruct (initSDK W (log s)); [|done].
    destruct (createInstance W (log s ++ [EvInitSDK])) as [inst|]; simpl; [|done].
    destruct (_ud_kp s); [by intros [= <- <-]|].
    match goal with |- context [prepare_keypair W inst ?s3] =>
      destruct (prepare_keypair_outcome inst s3) as (b & _ & Hrel & _);
      destruct (prepare_keypair W inst s3) as [[[]|] s4] end; [|done].
    simpl in *. by intros [= <- <-].
Qed.

Lemma initRelayer_starts_over s :
  _relayer s = None → is_Some (ethereum W) →
  ∃ evs, log (initRelayer W s).2 = log s ++ EvInitSDK :: evs.
Proof.
  intros Hnone [eth Heth]. rewrite (initRelayer_uncached _ Hnone), Heth.
  destruct (initSDK W (log s)); [|by exists []].
  destruct (createInstance W (log s ++ [EvInitSDK])) as [inst|]; simpl;
    [|rewrite <- app_assoc; by eexists].
  destruct (_ud_kp s); [simpl; rewrite <- app_assoc; by eexists|].
  match goal with |- context [prepare_keypair W inst ?s3] =>
    destruct (prepare_keypair_outcome inst s3) as (b & Hlog & _);
    destruct (prepare_keypair W inst s3) as [[[]|] s4] end;
    simpl in *; rewrite Hlog, <- !app_assoc; by eexists.
Qed.

Lemma initRelayer_connects s r :
  _relayer s = None → is_Some (ethereum W) →
  initSDK W (log s) = Ok () →
  createInstance W (log s ++ [EvInitSDK]) = Ok r →
  _relayer (initRelayer W s).2 = Some r ∧
  ∃ evs, log (initRelayer W s).2 = log s ++ EvInitSDK :: EvCreateInstance :: evs.
Proof.
  intros Hnone [eth Heth] Hsdk Hcreate.
  rewrite (initRelayer_uncached _ Hnone), Heth, Hsdk, Hcreate. simpl.
  destruct (_ud_kp s); [simpl; rewrite <- app_assoc; eauto|].
  match goal with |- context [prepare_keypair W r ?s3] =>
    destruct (prepare_keypair_outcome r s3) as (b & Hlog & Hrel & _);
    destruct (prepare_keypair W r s3) as [[[]|] s4] end;
    simpl in *; rewrite Hlog, Hrel, <- !app_assoc; eauto.
Qed.

Lemma initRelayer_caches_created s r :
  _relayer (initRelayer W s).2 = Some r →
  _relayer s = Some r ∨
  (_relayer s = None ∧ createInstance W (log s ++ [EvInitSDK]) = Ok r).
Proof.
  destruct (_relayer s) as [r0|] eqn:Hr0.
  - rewrite (initRelayer_cached _ _ Hr0). simpl. rewrite Hr0. auto.
  - rewrite (initRelayer_uncached _ Hr0).
    destruct (ethereum W); [|simpl; congruence].
    destruct (initSDK W (log s)); [|simpl; congruence].
    destruct (createInstance W (log s ++ [EvInitSDK])) as [inst|]; simpl;
      [|congruence].
    destruct (_ud_kp s); [simpl; intros [= <-]; auto|].
    match goal with |- context [prepare_keypair W inst ?s3] =>
      destruct (prepare_keypair_outcome inst s3) as (b & _ & Hrel & _);
      destruct (prepare_keypair W inst s3) as [[[]|] s4] end;
      simpl in *; rewrite Hrel; intros [= <-]; auto.
Qed.

(** C10.  When [initRelayer] finds no cached instance and the creation of
    the backend instance throws, the error reaches the caller, [_relayer]
    stays unset and nothing but the two calls is left behind; the next
    call runs the initialization again from its first step, and caches the
    instance if the creation now succeeds.  In every call, an instance
    found in the cache afterwards was there before, or is the one
    [createInstance] just returned. *)
Theorem initRelayer_failed_connect_not_cached (s : state) (e : jsval) :
  _relayer s = None →
  is_Some (ethereum W) →
  initSDK W (log s) = Ok () →
  createInstance W (log s ++ [EvInitSDK]) = Throw e →
  let s' := (initRelayer W s).2 in
  initRelayer W s = (Throw e, s') ∧
  _relayer s' = None ∧ _ud_kp s' = _ud_kp s ∧
  log s' = log s ++ [EvInitSDK; EvCreateInstance] ∧
  (∃ evs, log (initRelayer W s').2 = log s' ++ EvInitSDK :: evs) ∧
  (∀ r, initSDK W (log s') = Ok () →
        createInstance W (log s' ++ [EvInitSDK]) = Ok r →
        _relayer (initRelayer W s').2 = Some r ∧
        ∃ evs, log (initRelayer W s').2
               = log s' ++ EvInitSDK :: EvCreateInstance :: evs) ∧
  (∀ s0 r, _relayer (initRelayer W s0).2 = Some r →
           _relayer s0 = Some r ∨
           (_relayer s0 = None ∧ createInstance W (log s0 ++ [EvInitSDK]) = Ok r)).
Proof.
  intros Hnone [eth Heth] Hsdk Hcreate s'.
  assert (Hrun : initRelayer W s
                 = (Throw e, {| _relayer := None; _ud_kp := _ud_kp s;
                                log := log s ++ [EvInitSDK; EvCreateInstance] |})).
  { rewrite (initRelayer_uncached _ Hnone), Heth, Hsdk, Hcreate.
    simpl. by rewrite <- app_assoc. }
  subst s'. rewrite Hrun. cbn [snd].
  split_and!; try done.
  - apply initRelayer_starts_over; [done|by eexists].
  - intros r Hsdk' Hcreate'. apply initRelayer_connects; [done|by eexists|done..].
  - intros s0 r. apply initRelayer_caches_created.
Qed.

End Session.

(** A relayer that is unreachable at the first attempt only. *)
Lemma initRelayer_failed_connect_not_cached_witness :
  initRelayer Stub.flaky_connect fresh
  = (Throw (Error (js "relayer unreachable")),
     {| _relayer := None; _ud_kp := None; log := [EvInitSDK; EvCreateInstance] |}) ∧
  _relayer (initRelayer Stub.flaky_connect
              (initRelayer Stub.flaky_connect fresh).2).2 = Some Stub.accepting.
Proof.
  destruct (initRelayer_failed_connect_not_cached Stub.flaky_connect fresh
              (Error (js "relayer unreachable")) eq_refl (mk_is_Some _ _ eq_refl)
              eq_refl eq_refl)
    as (Hrun & _ & _ & _ & _ & Hnext & _).
  split; [exact Hrun|].
  exact (proj1 (Hnext Stub.accepting eq_refl eq_refl)).
Defined.

(** ** Encrypted input builder *)

Section UserAddress.

Context (W : World).

Lemma ensureUserAddress_log user s :
  _relayer (ensureUserAddress W user s).2 = _relayer s ∧
  _ud_kp (ensureUserAddress W user s).2 = _ud_kp s ∧
  ∃ evs, log (ensureUserAddress W user s).2 = log s ++ evs ∧
         Forall (λ ev, is_builder_event ev = false) evs.
Proof.
  unfold ensureUserAddress.
  destruct (negb _).
  - simpl. split_and!; try done. exists []. by rewrite app_nil_r.
  - destruct (ethereum W) as [eth|]; run_monad.
    + assert (Hlog : ∃ evs, log s ++ [EvEthAccounts] = log s ++ evs ∧
                Forall (λ ev, is_builder_event ev = false) evs)
        by (exists [EvEthAccounts]; by repeat constructor).
      destruct (Wallet.request_eth_accounts eth (log s)) as [[[|acc0 ?]|]|];
        simpl; try done.
      by destruct (bool_decide (acc0 = [])).
    + split_and!; try done. exists []. by rewrite app_nil_r.
Qed.

End UserAddress.

Section AttemptsFacts.

Context (W : World) (r : SDK.Instance) (v : Z).

Lemma first_success_app l1 l2 e s :
  first_success W r v (l1 ++ l2) e s =
  match first_success W r v l1 e s with
  | (Ok (inr e'), s') => first_success W r v l2 e' s'
  | other => other
  end.
Proof.
  revert e s. induction l1 as [|[[sh ca] ua] l1 IH]; intros e s; simpl.
  - reflexivity.
  - run_monad. destruct (attempt W r sh ca ua v s) as [[x|e1] s1]; [done|].
    apply IH.
Qed.

Lemma try_pair_first_success ca ua e s :
  try_pair W r ca ua v s = first_success W r v [(ObjectArg, ca, ua); (Positional, ca, ua)] e s.
Proof.
  unfold try_pair. simpl. run_monad.
  destruct (attempt W r ObjectArg ca ua v s) as [[x|e1] s1]; [done|].
  destruct (attempt W r Positional ca ua v s1) as [[x|e2] s2]; done.
Qed.

Lemma for_ua_first_success ca uaList e s :
  for_ua W r ca uaList v e s =
  first_success W r v (flat_map (λ ua, [(ObjectArg, ca, ua); (Positional, ca, ua)]) uaList) e s.
Proof.
  revert e s. induction uaList as [|ua uaList IH]; intros e s.
  - reflexivity.
  - cbn [for_ua flat_map]. rewrite first_success_app.
    rewrite <- (try_pair_first_success ca ua e). run_monad.
    destruct (try_pair W r ca ua v s) as [[[x|e']|e'] s']; try done.
Qed.

Lemma for_ca_first_success caList uaList e s :
  for_ca W r caList uaList v e s = first_success W r v (attempts caList uaList) e s.
Proof.
  revert e s. induction caList as [|ca caList IH]; intros e s.
  - reflexivity.
  - unfold attempts. cbn [for_ca flat_map]. rewrite first_success_app.
    rewrite <- for_ua_first_success. run_monad.
    destruct (for_ua W r ca uaList v e s) as [[[x|e']|e'] s']; try done.
Qed.

Lemma first_success_outcome l e0 s :
  match first_success W r v l e0 s with
  | (Ok (inl x), s') =>
      ∃ failed shape ca ua later e s1,
        l = failed ++ (shape, ca, ua) :: later ∧
        all_throw W r v failed s e0 s1 e ∧
        attempt W r shape ca ua v s1 = (Ok x, s')
  | (Ok (inr e), s') => all_throw W r v l s e0 s' e
  | (Throw _, _) => False
  end.
Proof.
  revert e0 s. induction l as [|[[sh ca] ua] l IH]; intros e0 s; simpl.
  - constructor.
  - run_monad. destruct (attempt W r sh ca ua v s) as [[x|e1] s1] eqn:Ha.
    + exists [], sh, ca, ua, l, e0, s. split_and!; [done|constructor|done].
    + specialize (IH e1 s1).
      destruct (first_success W r v l e1 s1) as [[[x|e2]|e2] s2]; try done.
      * destruct IH as (failed & sh' & ca' & ua' & later & e & s3 & -> & Hf & Hok).
        exists ((sh, ca, ua) :: failed), sh', ca', ua', later, e, s3.
        split_and!; [done| |done]. econstructor; eauto.
      * econstructor; eauto.
Qed.

Lemma all_throw_first_success l e0 s s' e :
  all_throw W r v l s e0 s' e → first_success W r v l e0 s = (Ok (inr e), s').
Proof.
  induction 1 as [|sh ca ua l s e0 e1 s1 s2 e2 Ha Hl IH]; simpl; [done|].
  run_monad. by rewrite Ha.
Qed.

Lemma all_throw_snoc l shape ca ua s e0 s' e :
  all_throw W r v (l ++ [(shape, ca, ua)]) s e0 s' e →
  ∃ s1 e1, all_throw W r v l s e0 s1 e1 ∧ attempt W r shape ca ua v s1 = (Throw e, s').
Proof.
  revert s e0. induction l as [|[[sh' ca'] ua'] l IH]; intros s e0; simpl.
  - inversion 1 as [|? ? ? ? ? ? ? ? ? ? Ha Hl]; subst. inversion Hl; subst.
    eexists _, _. split; [constructor|done].
  - inversion 1 as [|? ? ? ? ? ? ? ? ? ? Ha Hl]; subst.
    destruct (IH _ _ Hl) as (s3 & e3 & Hl' & Ha').
    eexists _, _. split; [econstructor; eauto|done].
Qed.

Lemma first_success_all_throw l e0 s s' e :
  first_success W r v l e0 s = (Ok (inr e), s') → all_throw W r v l s e0 s' e.
Proof.
  intros H. pose proof (first_success_outcome l e0 s) as Hout.
  by rewrite H in Hout.
Qed.

End AttemptsFacts.

Lemma attempts_last caList uaList :
  caList ≠ [] → uaList ≠ [] →
  ∃ ca ua front,
    last caList = Some ca ∧ last uaList = Some ua ∧
    attempts caList uaList = front ++ [(Positional, ca, ua)].
Proof.
  intros Hca Hua.
  destruct (last caList) as [ca|] eqn:Hlca; [|by apply last_None in Hlca].
  destruct (last uaList) as [ua|] eqn:Hlua; [|by apply last_None in Hlua].
  exists ca, ua.
  apply last_Some in Hlca as [cas ->]. apply last_Some in Hlua as [uas ->].
  exists (attempts cas (uas ++ [ua])
          ++ flat_map (λ ua', [(ObjectArg, ca, ua'); (Positional, ca, ua')]) uas
          ++ [(ObjectArg, ca, ua)]).
  split_and!; [done..|].
  unfold attempts. rewrite flat_map_app. simpl. rewrite app_nil_r, flat_map_app.
  simpl. rewrite <- !app_assoc. reflexivity.
Qed.

Section Encrypt.

Context (W : World).

(** [encrypt64For] once the session and the user address are there. *)
Lemma encrypt64For_run contract user v s r s1 uaRaw s2 :
  initRelayer W s = (Ok r, s1) →
  ensureUserAddress W user s1 = (Ok uaRaw, s2) →
  encrypt64For W contract user v s =
  if bool_decide (addressVariants W contract = []) then
    (Throw (Error (js "Contract address looks invalid: " ++ contract)), s2)
  else if bool_decide (addressVariants W uaRaw = []) then
    (Throw (Error (js "User address looks invalid: " ++ uaRaw)), s2)
  else
    match first_success W r v
            (attempts (addressVariants W contract) (addressVariants W uaRaw))
            VUndefined s2 with
    | (Ok (inl x), s') => (Ok x, s')
    | (Ok (inr lastErr), s') =>
        (Throw (or_else lastErr
                  (Error (js "Relayer encrypt failed for all address variants"))), s')
    | (Throw e, s') => (Throw e, s')
    end.
Proof.
  intros Hinit Hua. unfold encrypt64For.
  unfold mbind at 1, M_bind at 1. rewrite Hinit.
  unfold mbind at 1, M_bind at 1. rewrite Hua.
  repeat case_bool_decide; try done.
  unfold mbind, M_bind. rewrite for_ca_first_success.
  by destruct (first_success _ _ _ _ _ _) as [[[x|e]|e] s'].
Qed.

(** C2, as the code has it.  With a session and a user address, and both
    candidate lists non-empty, [encrypt64For] goes through the candidate
    matrix in the order of [attempts] (contract candidates outermost, for
    each pair the structured shape and then the positional one).  An
    attempt is made only after every attempt before it has thrown, at
    whichever step: construction, metadata, [add64], [encrypt] or the
    check of the result.  The value of the first attempt that returns is
    the result, and the state is the one that attempt left. *)
Theorem encrypt64For_attempt_order contract user v s r s1 uaRaw s2 :
  initRelayer W s = (Ok r, s1) →
  ensureUserAddress W user s1 = (Ok uaRaw, s2) →
  addressVariants W contract ≠ [] →
  addressVariants W uaRaw ≠ [] →
  stopped_at_first_success W r v
    (attempts (addressVariants W contract) (addressVariants W uaRaw)) s2
    (encrypt64For W contract user v s).1 (encrypt64For W contract user v s).2.
Proof.
  intros Hinit Hua Hca Hual.
  rewrite (encrypt64For_run _ _ _ _ _ _ _ _ Hinit Hua).
  rewrite !bool_decide_eq_false_2 by done.
  pose proof (first_success_outcome W r v
    (attempts (addressVariants W contract) (addressVariants W uaRaw)) VUndefined s2)
    as Hout.
  destruct (first_success _ _ _ _ _ _) as [[[x|e]|e] s']; [| |done].
  - destruct Hout as (failed & sh & ca & ua & later & e & s3 & Hl & Hf & Hok).
    left. exists x, failed, sh, ca, ua, later, e, s3. by rewrite Hl.
  - right. by exists e.
Qed.

(** C3, as the code has it.  When every combination, tried in order,
    throws, [encrypt64For] throws the value thrown last, the one thrown by
    the positional attempt on the last contract candidate and the last user
    candidate: that very value, whatever it is, not a new error around it.
    Only when that value is falsy does the error "Relayer encrypt failed
    for all address variants" take its place. *)
Theorem encrypt64For_throws_last_error contract user v s r s1 uaRaw s2 s' e :
  initRelayer W s = (Ok r, s1) →
  ensureUserAddress W user s1 = (Ok uaRaw, s2) →
  addressVariants W contract ≠ [] →
  addressVariants W uaRaw ≠ [] →
  all_throw W r v (attempts (addressVariants W contract) (addressVariants W uaRaw))
    s2 VUndefined s' e →
  encrypt64For W contract user v s
  = (Throw (if truthy e then e
            else Error (js "Relayer encrypt failed for all address variants")), s') ∧
  ∃ ca ua s3,
    last (addressVariants W contract) = Some ca ∧
    last (addressVariants W uaRaw) = Some ua ∧
    attempt W r Positional ca ua v s3 = (Throw e, s').
Proof.
  intros Hinit Hua Hca Hual Hall. split.
  - rewrite (encrypt64For_run _ _ _ _ _ _ _ _ Hinit Hua).
    rewrite !bool_decide_eq_false_2 by done.
    by rewrite (all_throw_first_success _ _ _ _ _ _ _ _ Hall).
  - destruct (attempts_last _ _ Hca Hual) as (ca & ua & front & Hlca & Hlua & Heq).
    rewrite Heq in Hall.
    apply all_throw_snoc in Hall as (s3 & e3 & _ & Hlast).
    by exists ca, ua, s3.
Qed.

(** C4, as the code has it.  With a session and a user address resolved,
    an empty candidate list makes [encrypt64For] throw an error that
    quotes the raw contract address, or else the resolved user address;
    the state is the one the two preliminary steps left, and up to there
    no encrypted input was built, fed or encrypted. *)
Theorem encrypt64For_invalid_address contract user v s r s1 uaRaw s2 :
  initRelayer W s = (Ok r, s1) →
  ensureUserAddress W user s1 = (Ok uaRaw, s2) →
  addressVariants W contract = [] ∨ addressVariants W uaRaw = [] →
  encrypt64For W contract user v s
  = (Throw (Error
       (if bool_decide (addressVariants W contract = [])
        then js "Contract address looks invalid: " ++ contract
        else js "User address looks invalid: " ++ uaRaw)), s2) ∧
  ∃ evs, log s2 = log s ++ evs ∧ Forall (λ ev, is_builder_event ev = false) evs.
Proof.
  intros Hinit Hua Hempty. split.
  - rewrite (encrypt64For_run _ _ _ _ _ _ _ _ Hinit Hua).
    case_bool_decide; [done|]. destruct Hempty as [?|Hu]; [done|].
    by rewrite bool_decide_eq_true_2.
  - destruct (initRelayer_log W s) as (evs1 & Hlog1 & Hevs1).
    destruct (ensureUserAddress_log W user s1) as (_ & _ & evs2 & Hlog2 & Hevs2).
    rewrite Hinit in Hlog1. rewrite Hua in Hlog2. simpl in *.
    exists (evs1 ++ evs2). rewrite Hlog2, Hlog1, app_assoc. split; [done|].
    by apply Forall_app.
Qed.

End Encrypt.

(** The structured call builds an input, its encryption is rejected, and
    the positional call for the same pair follows: the positional shape
    is tried although the structured construction did not throw. *)
Lemma encrypt64For_attempt_order_counterexample :
  let W := Stub.structured_encrypt_rejects in
  let run := encrypt64For W Stub.contract (Some Stub.account) 500 fresh in
  (∀ h, ∃ enc,
     SDK.createEncryptedInput Stub.rejecting_backend h ObjectArg Stub.contract Stub.account
     = Ok enc) ∧
  List.filter is_createEncryptedInput (log run.2)
  = [EvCreateEncryptedInput ObjectArg Stub.contract Stub.account;
     EvCreateEncryptedInput Positional Stub.contract Stub.account] ∧
  run.1 = Ok {| handle := VBytes [1; 2]%N; attestation := VBytes [3]%N |}.
Proof.
  split_and!; [intros h; by eexists|vm_compute; reflexivity..].
Qed.

(** The scenario of the spec: only the positional shape for the lowercase
    contract address is accepted; three attempts throw, the fourth
    returns. *)
Lemma encrypt64For_attempt_order_witness :
  let W := Stub.lowercase_positional_only in
  let s1 := (initRelayer W fresh).2 in
  initRelayer W fresh = (Ok Stub.lowercase_backend, s1) ∧
  ensureUserAddress W (Some Stub.account) s1 = (Ok Stub.account, s1) ∧
  stopped_at_first_success W Stub.lowercase_backend 500
    [(ObjectArg, Stub.contract, Stub.account); (Positional, Stub.contract, Stub.account);
     (ObjectArg, Stub.contract_lc, Stub.account);
     (Positional, Stub.contract_lc, Stub.account)]
    s1
    (Ok {| handle := VBytes [1; 2]%N; attestation := VBytes [3]%N |})
    (encrypt64For W Stub.contract (Some Stub.account) 500 fresh).2.
Proof.
  intros W s1. split; [reflexivity|]. split; [reflexivity|].
  exact (encrypt64For_attempt_order W Stub.contract (Some Stub.account) 500 fresh
           Stub.lowercase_backend s1 Stub.account s1 eq_refl eq_refl
           ltac:(discriminate) ltac:(discriminate)).
Defined.

(** Every construction throws an error that names its shape and its
    contract address: the caller gets the positional error for the last
    contract candidate, as it was thrown. *)
Lemma encrypt64For_throws_last_error_witness :
  let W := Stub.refusing in
  let s1 := (initRelayer W fresh).2 in
  let run := encrypt64For W Stub.contract (Some Stub.account) 500 fresh in
  initRelayer W fresh = (Ok Stub.refusing_backend, s1) ∧
  (attempt W Stub.refusing_backend ObjectArg Stub.contract Stub.account 500 s1).1
  = Throw (Error (js "object " ++ Stub.contract)) ∧
  run = (Throw (Error (js "positional " ++ Stub.contract_lc)), run.2).
Proof.
  intros W s1 run. split; [reflexivity|]. split; [reflexivity|].
  refine (proj1 (encrypt64For_throws_last_error W Stub.contract (Some Stub.account) 500
                   fresh Stub.refusing_backend s1 Stub.account s1 run.2
                   (Error (js "positional " ++ Stub.contract_lc))
                   eq_refl eq_refl ltac:(discriminate) ltac:(discriminate) _)).
  apply first_success_all_throw. vm_compute. reflexivity.
Defined.

(** The value thrown last is [undefined]: the caller gets the generic
    error, whose message no attempt produced, and not the error the last
    structured attempt threw either.  The value thrown last is a string:
    the caller gets that string, which is no error object. *)
Lemma encrypt64For_throws_last_error_counterexample :
  let generic := Error (js "Relayer encrypt failed for all address variants") in
  let run thrown :=
    encrypt64For (throwing thrown) Stub.contract (Some Stub.account) 500 fresh in
  let last_attempt thrown shape :=
    (attempt (throwing thrown) (throwing_backend thrown) shape Stub.contract_lc
       Stub.account 500 (initRelayer (throwing thrown) fresh).2).1 in
  last_attempt VUndefined ObjectArg = Throw (Error (js "object " ++ Stub.contract_lc)) ∧
  last_attempt VUndefined Positional = Throw VUndefined ∧
  (run VUndefined).1 = Throw generic ∧
  last_attempt (VString (js "boom")) Positional = Throw (VString (js "boom")) ∧
  (run (VString (js "boom"))).1 = Throw (VString (js "boom")).
Proof. split_and!; vm_compute; reflexivity. Qed.

(** A contract address without candidates: with no connected account the
    call fails with "No connected account" instead; and on a fresh page
    the backend was connected and asked for a keypair before the
    invalid-address error. *)
Lemma encrypt64For_invalid_address_counterexample :
  addressVariants Stub.no_account (js "nope") = [] ∧
  (encrypt64For Stub.no_account (js "nope") None 500 fresh).1
  = Throw (Error (js "No connected account")) ∧
  addressVariants Stub.plain (js "nope") = [] ∧
  (encrypt64For Stub.plain (js "nope") (Some Stub.account) 500 fresh).1
  = Throw (Error (js "Contract address looks invalid: nope")) ∧
  log (encrypt64For Stub.plain (js "nope") (Some Stub.account) 500 fresh).2
  = [EvInitSDK; EvCreateInstance; EvGenerateKeypair true].
Proof. split_and!; vm_compute; reflexivity. Qed.

(** A user address that is too short. *)
Lemma encrypt64For_invalid_address_witness :
  let W := Stub.plain in
  let s1 := (initRelayer W fresh).2 in
  initRelayer W fresh = (Ok Stub.accepting, s1) ∧
  ensureUserAddress W None s1
  = (Ok Stub.account, (ensureUserAddress W None s1).2) ∧
  encrypt64For W Stub.contract (Some (js "0x12")) 500 fresh
  = (Throw (Error (js "User address looks invalid: 0x12")), s1).
Proof.
  intros W s1. split; [reflexivity|]. split; [reflexivity|].
  exact (proj1 (encrypt64For_invalid_address W Stub.contract (Some (js "0x12")) 500
                  fresh Stub.accepting s1 (js "0x12") s1 eq_refl eq_refl
                  (or_intror eq_refl))).
Defined.

(** ** Decrypt requesters *)

Lemma js_map_Ok {A B} (f : A → result B) xs ys :
  js_map f xs = Ok ys ↔ Forall2 (λ x y, f x = Ok y) xs ys.
Proof.
  revert ys. induction xs as [|x xs IH]; intros ys; simpl.
  - split; [intros [= <-]; constructor|by inversion 1].
  - destruct (f x) as [y|e] eqn:Hx; simpl.
    + destruct (js_map f xs) as [ys'|e] eqn:Hxs; simpl.
      * split.
        -- intros [= <-]. constructor; [done|by apply IH].
        -- inversion 1 as [|? y' ? ys'' Hy Hys]; subst.
           apply IH in Hys. congruence.
      * split; [done|]. inversion 1 as [|? y' ? ys'' Hy Hys]; subst.
        by apply IH in Hys.
    + split; [done|]. inversion 1; congruence.
Qed.

Lemma js_map_Throw {A B} (f : A → result B) xs x e :
  x ∈ xs → f x = Throw e → ∃ e', js_map f xs = Throw e'.
Proof.
  intros Hin Hx. induction xs as [|x' xs IH]; [by apply not_elem_of_nil in Hin|].
  apply elem_of_cons in Hin as [->|Hin]; simpl.
  - rewrite Hx. by eexists.
  - destruct (f x'); simpl; [|by eexists].
    destruct (IH Hin) as [e' ->]. by eexists.
Qed.

Lemma BigInt_Ok_not_nullish v z : BigInt v = Ok z → nullish v = false.
Proof. by destruct v. Qed.

(** The callback of the second [map], in terms of the entry. *)
Lemma lookup_entry out h :
  (match out with RArray _ => False | _ => True end) →
  result_bind (get_property out h) (λ v,
    result_bind (if nullish v then get_property out (String_of_handle h) else Ok v)
      BigInt)
  = match entry out h with
    | Some v => BigInt v
    | None => Throw (runtime_error KTypeError)
    end.
Proof.
  destruct out as [vs|m|]; [done| |done]. intros _.
  unfold entry, get_property, String_of_handle. simpl.
  destruct (m !! h) as [v|]; simpl; [|done].
  by destruct v.
Qed.

Lemma normalize_response_carries dec handles out :
  carries dec handles out → normalize_response handles out = Ok (List.map dec handles).
Proof.
  destruct out as [vs|m|]; simpl.
  - intros H. apply js_map_Ok. induction H; simpl; by constructor.
  - intros H. apply js_map_Ok. induction handles as [|h hs IH]; simpl; constructor.
    + destruct (H h) as (v & Hm & Hv); [by left|].
      rewrite Hm. simpl. by rewrite (BigInt_Ok_not_nullish _ _ Hv).
    + apply IH. intros h' Hh'. apply H. by right.
  - by intros ->.
Qed.

Lemma normalize_response_complete handles out :
  complete handles out (normalize_response handles out).
Proof.
  destruct out as [vs|m|].
  - intros vals H. by apply js_map_Ok.
  - split.
    + intros vals H. apply js_map_Ok in H.
      eapply Forall2_impl; [exact H|]. intros h z Hz. cbv beta in Hz.
      rewrite (lookup_entry (RObject m) h I) in Hz.
      destruct (entry (RObject m) h) as [v|]; [eauto|done].
    + intros h Hin Hnone. eapply js_map_Throw; [exact Hin|]. cbv beta.
      rewrite (lookup_entry (RObject m) h I). by rewrite Hnone.
  - split.
    + intros vals H. apply js_map_Ok in H.
      eapply Forall2_impl; [exact H|]. by intros h z Hz.
    + intros h Hin _. eapply js_map_Throw; [exact Hin|done].
Qed.

Lemma js_map_total {A B} (f : A → result B) xs :
  (∀ x, x ∈ xs → ∃ y, f x = Ok y) → ∃ ys, js_map f xs = Ok ys.
Proof.
  induction xs as [|x xs IH]; intros H; simpl; [by eexists|].
  destruct (H x) as [y ->]; [by left|]. simpl.
  destruct IH as [ys ->]; [intros x' Hx'; apply H; by right|].
  by eexists.
Qed.

(** What the two closing lines make of a response whose values [BigInt]
    accepts: from an array, the conversion of every element, position by
    position; from an object, the conversion of the entry of every
    requested handle, in the order of the handles. *)
Lemma normalize_response_convertible handles out :
  convertible handles out →
  ∃ vals,
    normalize_response handles out = Ok vals ∧
    match out with
    | RArray vs => Forall2 (λ v z, BigInt v = Ok z) vs vals
    | RObject m =>
        Forall2 (λ h z, ∃ v, m !! h = Some v ∧ BigInt v = Ok z) handles vals
    | RNullish => vals = []
    end.
Proof.
  destruct out as [vs|m|]; cbn [convertible normalize_response]; intros Hout.
  - destruct (js_map_total BigInt vs Hout) as [vals Hvals].
    exists vals. split; [done|]. by apply js_map_Ok.
  - match goal with |- context [js_map ?f handles] =>
      destruct (js_map_total f handles) as [vals Hvals] end.
    { intros h Hh. destruct (Hout h Hh) as (v & z & Hm & Hz).
      exists z. rewrite (lookup_entry (RObject m) h I). unfold entry.
      by rewrite Hm, (BigInt_Ok_not_nullish _ _ Hz). }
    exists vals. split; [done|]. apply js_map_Ok in Hvals.
    eapply Forall2_impl; [exact Hvals|]. intros h z Hz. cbv beta in Hz.
    rewrite (lookup_entry (RObject m) h I) in Hz. unfold entry in Hz.
    destruct (m !! h) as [v|]; [|done].
    destruct (nullish v); [done|]. by exists v.
  - subst handles. by exists [].
Qed.

Section Decrypt.

Context (W : World).

Lemma userDecrypt_run handles user contract s :
  userDecrypt W handles user contract s =
  match userDecrypt_request W handles user contract s with
  | (Ok out, s') => (normalize_response handles out, s')
  | (Throw e, s') => (Throw e, s')
  end.
Proof. reflexivity. Qed.

Lemma publicDecrypt_run handles s :
  publicDecrypt W handles s =
  match initRelayer W s with
  | (Ok r, s1) =>
      let s2 := {| _relayer := _relayer s1; _ud_kp := _ud_kp s1;
                   log := log s1 ++ [EvPublicDecrypt handles] |} in
      match SDK.publicDecrypt r (log s1) handles with
      | Ok out => (normalize_response handles out, s2)
      | Throw e => (Throw e, s2)
      end
  | (Throw e, s1) => (Throw e, s1)
  end.
Proof.
  unfold publicDecrypt. run_monad.
  destruct (initRelayer W s) as [[r|e] s1]; [|done].
  by destruct (SDK.publicDecrypt r (log s1) handles).
Qed.

(** C1, as the code has it.  Let [out] be a response whose values
    [BigInt] accepts.  Whenever the backend answers the request of
    [userDecrypt] with [out], [userDecrypt] returns a list [vals]; whenever
    it answers the request of [publicDecrypt] with [out], [publicDecrypt]
    returns the same [vals].  From an object keyed by handle, [vals] is as
    long as [handles] and holds at position [i] the conversion of the entry
    under [handles[i]].  From an array, [vals] is as long as the array and
    holds at position [i] the conversion of its element [i], whatever the
    handles are.  No range is checked: the values are unsigned 64-bit
    integers exactly when those of the backend are. *)
Theorem decrypt_in_handle_order (handles : list (list N)) (out : Response) :
  convertible handles out →
  ∃ vals : list Z,
    (∀ user contract s sU,
       userDecrypt_request W handles user contract s = (Ok out, sU) →
       userDecrypt W handles user contract s = (Ok vals, sU)) ∧
    (∀ s r s1,
       initRelayer W s = (Ok r, s1) →
       SDK.publicDecrypt r (log s1) handles = Ok out →
       (publicDecrypt W handles s).1 = Ok vals) ∧
    match out with
    | RArray vs =>
        length vals = length vs ∧
        (∀ i v, vs !! i = Some v → ∃ z, vals !! i = Some z ∧ BigInt v = Ok z) ∧
        (Forall u64 vals ↔ ∀ v z, v ∈ vs → BigInt v = Ok z → u64 z)
    | RObject m =>
        length vals = length handles ∧
        (∀ i h, handles !! i = Some h →
           ∃ v z, m !! h = Some v ∧ vals !! i = Some z ∧ BigInt v = Ok z) ∧
        (Forall u64 vals ↔
         ∀ h v z, h ∈ handles → m !! h = Some v → BigInt v = Ok z → u64 z)
    | RNullish => vals = []
    end.
Proof.
  intros Hout.
  destruct (normalize_response_convertible handles out Hout) as (vals & Hvals & Hrel).
  exists vals. split_and!.
  - intros user contract s sU Hreq. by rewrite userDecrypt_run, Hreq, Hvals.
  - intros s r s1 Hinit Hpub. by rewrite publicDecrypt_run, Hinit, Hpub, Hvals.
  - destruct out as [vs|m|]; [| |done].
    + split_and!.
      * symmetry. by eapply Forall2_length.
      * intros i v Hi. exact (Forall2_lookup_l _ _ _ _ _ Hrel Hi).
      * rewrite Forall_forall. split.
        -- intros Hu v z [i Hi]%list_elem_of_lookup Hz.
           destruct (Forall2_lookup_l _ _ _ _ _ Hrel Hi) as (z' & Hz' & Hconv).
           assert (z = z') as -> by congruence.
           apply Hu. by eapply list_elem_of_lookup_2.
        -- intros Hu z [i Hi]%list_elem_of_lookup.
           destruct (Forall2_lookup_r _ _ _ _ _ Hrel Hi) as (v & Hv & Hconv).
           eapply Hu; [by eapply list_elem_of_lookup_2|done].
    + split_and!.
      * symmetry. by eapply Forall2_length.
      * intros i h Hi.
        destruct (Forall2_lookup_l _ _ _ _ _ Hrel Hi) as (z & Hz & v & Hm & Hconv).
        by exists v, z.
      * rewrite Forall_forall. split.
        -- intros Hu h v z [i Hi]%list_elem_of_lookup Hm Hz.
           destruct (Forall2_lookup_l _ _ _ _ _ Hrel Hi)
             as (z' & Hz' & v' & Hm' & Hconv).
           assert (z = z') as -> by congruence.
           apply Hu. by eapply list_elem_of_lookup_2.
        -- intros Hu z [i Hi]%list_elem_of_lookup.
           destruct (Forall2_lookup_r _ _ _ _ _ Hrel Hi) as (h & Hh & v & Hm & Hconv).
           eapply Hu; [by eapply list_elem_of_lookup_2|done..].
Qed.

(** C9, as the code has it.  A failure of the request fails the whole
    call.  From a response that is not an array, a result holds the value
    of the entry of every requested handle, in order, and a handle whose
    entry is missing (or [null], or [undefined]) makes the call throw.
    From an array, a result holds the conversion of every element of the
    array; its length is the array's. *)
Theorem decrypt_all_or_nothing handles user contract s :
  (∀ out sU, userDecrypt_request W handles user contract s = (Ok out, sU) →
     complete handles out (userDecrypt W handles user contract s).1) ∧
  (∀ e sU, userDecrypt_request W handles user contract s = (Throw e, sU) →
     userDecrypt W handles user contract s = (Throw e, sU)) ∧
  (∀ r s1 out, initRelayer W s = (Ok r, s1) →
     SDK.publicDecrypt r (log s1) handles = Ok out →
     complete handles out (publicDecrypt W handles s).1) ∧
  (∀ r s1 e, initRelayer W s = (Ok r, s1) →
     SDK.publicDecrypt r (log s1) handles = Throw e →
     (publicDecrypt W handles s).1 = Throw e) ∧
  (∀ e s1, initRelayer W s = (Throw e, s1) →
     publicDecrypt W handles s = (Throw e, s1)).
Proof.
  split_and!.
  - intros out sU H. rewrite userDecrypt_run, H. apply normalize_response_complete.
  - intros e sU H. by rewrite userDecrypt_run, H.
  - intros r s1 out Hinit Hpub. rewrite publicDecrypt_run, Hinit, Hpub.
    apply normalize_response_complete.
  - intros r s1 e Hinit Hpub. by rewrite publicDecrypt_run, Hinit, Hpub.
  - intros e s1 Hinit. by rewrite publicDecrypt_run, Hinit.
Qed.

End Decrypt.

(** The scenario of the spec: the object [{0xhandleA: 7, 0xhandleB: 9}]
    for the public request; and an array for the user request. *)
Lemma decrypt_in_handle_order_witness :
  let W := Stub.plain in
  let handles := [Stub.handleA; Stub.handleB] in
  let object := RObject {[ Stub.handleA := VNumber (NumInt 7);
                           Stub.handleB := VNumber (NumInt 9) ]} in
  let array := RArray [VNumber (NumInt 7); VString (js "9")] in
  convertible handles object ∧
  SDK.publicDecrypt Stub.accepting (log (initRelayer W fresh).2) handles = Ok object ∧
  (publicDecrypt W handles fresh).1 = Ok [7; 9] ∧
  convertible handles array ∧
  (userDecrypt_request W handles None Stub.contract fresh).1 = Ok array ∧
  (userDecrypt W handles None Stub.contract fresh).1 = Ok [7; 9].
Proof.
  intros W handles object array.
  assert (Hobject : convertible handles object).
  { intros h Hh. apply elem_of_cons in Hh as [->|Hh];
      [|apply list_elem_of_singleton in Hh as ->];
      do 2 eexists; (split; [vm_compute; reflexivity|reflexivity]). }
  assert (Harray : convertible handles array).
  { intros v Hv. apply elem_of_cons in Hv as [->|Hv];
      [|apply list_elem_of_singleton in Hv as ->]; by eexists. }
  split; [exact Hobject|]. split; [reflexivity|]. split.
  - destruct (decrypt_in_handle_order W handles object Hobject)
      as (vals & _ & Hpub & _).
    specialize (Hpub fresh Stub.accepting (initRelayer W fresh).2 eq_refl eq_refl).
    rewrite Hpub. f_equal. vm_compute in Hpub. by injection Hpub as <-.
  - split; [exact Harray|]. split; [reflexivity|].
    destruct (decrypt_in_handle_order W handles array Harray)
      as (vals & Huser & _).
    specialize (Huser None Stub.contract fresh
                  (userDecrypt_request W handles None Stub.contract fresh).2 eq_refl).
    rewrite Huser. cbn [fst]. f_equal.
    apply (f_equal fst) in Huser. vm_compute in Huser. by injection Huser as <-.
Defined.

(** Two handles requested.  The user request is answered with an array
    of three values, and three values are returned; the public request
    with an object whose values do not fit 64 bits, and they are returned
    as they are.  And an object without entry for the second handle makes
    the call throw. *)
Lemma decrypt_in_handle_order_counterexample :
  let handles := [Stub.handleA; Stub.handleB] in
  (userDecrypt unchecked handles None Stub.contract fresh).1 = Ok [2 ^ 64; 7; 9] ∧
  length [2 ^ 64; 7; 9] ≠ length handles ∧
  (publicDecrypt unchecked handles fresh).1 = Ok [-1; 2 ^ 64] ∧
  ¬ u64 (-1) ∧ ¬ u64 (2 ^ 64) ∧
  (publicDecrypt Stub.missing_entry handles fresh).1
  = Throw (runtime_error KTypeError).
Proof.
  split_and!;
    [vm_compute; reflexivity|discriminate|vm_compute; reflexivity| | |
     vm_compute; reflexivity];
    unfold u64; lia.
Qed.

(** Two handles requested, an array of one element answered: the call
    returns one value. *)
Lemma decrypt_all_or_nothing_counterexample :
  let handles := [Stub.handleA; Stub.handleB] in
  (publicDecrypt Stub.short_array handles fresh).1 = Ok [7] ∧
  (userDecrypt Stub.short_array handles None Stub.contract fresh).1 = Ok [7] ∧
  length [7] ≠ length handles.
Proof. split_and!; [vm_compute; reflexivity..|discriminate]. Qed.

(** An object without entry for the second handle. *)
Lemma decrypt_all_or_nothing_witness :
  let W := Stub.missing_entry in
  let handles := [Stub.handleA; Stub.handleB] in
  initRelayer W fresh = (Ok Stub.missing_entry_backend, (initRelayer W fresh).2) ∧
  entry (RObject {[ Stub.handleA := VNumber (NumInt 7) ]}) Stub.handleB = None ∧
  ∃ e, (publicDecrypt W handles fresh).1 = Throw e.
Proof.
  intros W handles. split; [reflexivity|]. split; [vm_compute; reflexivity|].
  destruct (decrypt_all_or_nothing W handles None Stub.contract fresh)
    as (_ & _ & Hpub & _).
  destruct (Hpub Stub.missing_entry_backend (initRelayer W fresh).2
              (RObject {[ Stub.handleA := VNumber (NumInt 7) ]}) eq_refl eq_refl)
    as [_ Hmissing].
  apply (Hmissing Stub.handleB).
  - apply elem_of_cons. right. by apply list_elem_of_singleton.
  - vm_compute. reflexivity.
Defined.

Section UserDecrypt.

Context (W : World).

Lemma resolved_head contract ca :
  resolved W contract ca →
  from_option id contract (head (addressVariants W contract)) = ca.
Proof. unfold resolved. by destruct (addressVariants W contract). Qed.

(** Which candidate comes first: the checksummed form when the
    canonicalization yields one, else the lowercase form. *)
Lemma resolved_form contract ca :
  resolved W contract ca →
  let raw := trim (strip_u200b contract) in
  (∀ cs, canonical W raw = Some cs → test_address cs = true → ca = cs) ∧
  (is_Some (ethers_getAddress W) → canonical W raw = None →
   test_address_lower (toLowerCase raw) = true → ca = toLowerCase raw) ∧
  (addressVariants W contract = [] → ca = contract).
Proof.
  intros Hca raw. unfold resolved, addressVariants, canonical in *.
  fold raw in Hca |- *. split_and!.
  - intros cs Hcs Hok. destruct (ethers_getAddress W) as [g|]; [|done].
    destruct (g raw) as [cs'|]; [|done]. injection Hcs as ->.
    rewrite Hok in Hca. simpl in Hca.
    by destruct (test_address_lower (toLowerCase raw)).
  - intros [g Hg] Hnone Hlc. rewrite Hg in *.
    destruct (g raw) as [cs'|]; [done|]. by rewrite Hlc in Hca.
  - intros Hempty. fold raw in Hempty. by rewrite Hempty in Hca.
Qed.

(** C8.  Let [ca] be the first normalized candidate of the contract
    address, or the raw string when there is none.  Whenever the session,
    the user address, the keypair, the signer, the typed-data construction
    for [[ca]], the signature and the backend request for the handles
    paired with [ca] succeed, [userDecrypt] gets the backend's answer: no
    step rejects an address without candidates, and the typed-data call
    and the backend call are made with [ca].  That [ca] is the checksummed
    form when the canonicalization yields one, else the lowercase form,
    and the raw string when there is no candidate. *)
Theorem userDecrypt_contract_address handles user contract s
    r s1 ua s2 kp provider signer account s3 ca eip sig out :
  initRelayer W s = (Ok r, s1) →
  ensureUserAddress W user s1 = (Ok ua, s2) →
  _ud_kp s2 = Some kp →
  _getSignerAndUser W s2 = (Ok (provider, signer, account), s3) →
  resolved W contract ca →
  let startTs := of_Z (Date_now W (log s3) / 1000) in
  let days := js "7" in
  let pairs := List.map (λ h, (h, ca)) handles in
  let typed := EvCreateEIP712 (publicKey kp) [ca] startTs days in
  let request := EvUserDecrypt pairs (privateKey kp) (publicKey kp)
                   (strip_0x sig) [ca] ua startTs days in
  SDK.createEIP712 r (log s3 ++ [EvDateNow]) (publicKey kp) [ca] startTs days = Ok eip →
  Wallet.signTypedData signer (log s3 ++ [EvDateNow; typed]) eip = Ok sig →
  SDK.userDecrypt r (log s3 ++ [EvDateNow; typed; EvSignTypedData eip])
    pairs (privateKey kp) (publicKey kp) (strip_0x sig) [ca] ua startTs days = Ok out →
  userDecrypt_request W handles user contract s
  = (Ok out,
     {| _relayer := _relayer s3; _ud_kp := _ud_kp s3;
        log := log s3 ++ [EvDateNow; typed; EvSignTypedData eip; request] |}) ∧
  let raw := trim (strip_u200b contract) in
  (∀ cs, canonical W raw = Some cs → test_address cs = true → ca = cs) ∧
  (is_Some (ethers_getAddress W) → canonical W raw = None →
   test_address_lower (toLowerCase raw) = true → ca = toLowerCase raw) ∧
  (addressVariants W contract = [] → ca = contract).
Proof.
  intros Hinit Hua Hkp Hsigner Hca startTs days pairs typed request Heip Hsig Hout.
  split; [|by apply resolved_form].
  unfold userDecrypt_request. rewrite (resolved_head _ _ Hca).
  unfold mbind at 1, M_bind at 1. rewrite Hinit.
  unfold mbind at 1, M_bind at 1. rewrite Hua.
  unfold mbind at 1, M_bind at 1, get__ud_kp at 1. rewrite Hkp.
  unfold mbind at 1, M_bind at 1, mret at 1, M_ret at 1.
  unfold mbind at 1, M_bind at 1, get__ud_kp at 1. rewrite Hkp.
  unfold mbind at 1, M_bind at 1. rewrite Hsigner.
  run_monad. fold startTs. fold days. fold pairs.
  rewrite Heip. rewrite <- !app_assoc. simpl.
  fold typed. rewrite Hsig. rewrite <- !app_assoc. simpl.
  by rewrite Hout.
Qed.

End UserDecrypt.

(** A contract string without candidates goes to the typed-data call and
    to the backend as it is. *)
Lemma userDecrypt_contract_address_witness :
  let W := Stub.plain in
  let run := userDecrypt_request W [Stub.handleA] None (js "not an address") fresh in
  addressVariants W (js "not an address") = [] ∧
  run.1 = Ok (RArray [VNumber (NumInt 7); VString (js "9")]) ∧
  drop 9 (log run.2)
  = [EvCreateEIP712 (VString (js "pk")) [js "not an address"] (js "1700000000") (js "7");
     EvSignTypedData Stub.eip712;
     EvUserDecrypt [(Stub.handleA, js "not an address")] (VString (js "sk"))
       (VString (js "pk")) (js "signed") [js "not an address"] Stub.account
       (js "1700000000") (js "7")].
Proof.
  intros W run. split; [reflexivity|].
  pose (s1 := (initRelayer W fresh).2).
  pose (s2 := (ensureUserAddress W None s1).2).
  pose (s3 := (_getSignerAndUser W s2).2).
  pose proof (userDecrypt_contract_address W [Stub.handleA] None (js "not an address")
              fresh Stub.accepting s1 Stub.account s2 Stub.keypair Stub.provider
              Stub.signer Stub.account s3 (js "not an address") Stub.eip712
              (js "0xsigned") (RArray [VNumber (NumInt 7); VString (js "9")])
              eq_refl eq_refl eq_refl eq_refl eq_refl eq_refl eq_refl eq_refl)
    as [Hrun _].
  fold run in Hrun. rewrite Hrun. split; reflexivity.
Defined.

(** ** Interleaved initialization *)

Section Interleaving.

Context (W : World).

(** A call that runs alone, resumed until it is done, is [initRelayer]. *)
Lemma run_alone s :
  Async.run W [0; 0; 0; 0]%nat [Async.Start] s
  = ([Async.Done match (initRelayer W s).1 with
                 | Ok r => Ok (Some r)
                 | Throw e => Throw e
                 end],
     (initRelayer W s).2).
Proof.
  destruct (_relayer s) as [r|] eqn:Hr.
  - rewrite (initRelayer_cached _ _ _ Hr). simpl. by rewrite Hr.
  - rewrite (initRelayer_uncached _ _ Hr). simpl. rewrite Hr.
    destruct (ethereum W); [|done]. unfold Async.suspend. simpl.
    destruct (initSDK W (log s)) as [[]|]; simpl; rewrite ?Hr; [|done].
    destruct (createInstance W (log s ++ [EvInitSDK])) as [inst|];
      simpl; rewrite ?Hr; [|done].
    destruct (_ud_kp s); [done|]. unfold prepare_keypair.
    destruct (SDK.generateKeypair inst) as [gen|]; run_monad.
    + by destruct (gen _).
    + by destruct (sdkGenerateKeypair W _).
Qed.

(** After its [await initSDK()], a call connects without looking at
    [_relayer] again. *)
Lemma resume_connects s :
  ∃ p, Async.resume W (Async.AwaitInitSDK (Ok ())) s
       = (Async.AwaitCreateInstance p,
          {| _relayer := _relayer s; _ud_kp := _ud_kp s;
             log := log s ++ [EvCreateInstance] |}).
Proof. by eexists. Qed.

End Interleaving.

(** Two calls on a fresh page, the second arriving while the first
    awaits [initSDK()].  The backend instance is created twice whatever
    the order of the resumptions; when the first call finishes before the
    second resumes from [createInstance], the two callers receive
    different instances. *)
Lemma initRelayer_two_calls_different_instances :
  let alternating :=
    Async.run Stub.numbered [0; 1; 0; 1; 0; 1; 0; 1]%nat
      [Async.Start; Async.Start] fresh in
  let first_finishes :=
    Async.run Stub.numbered [0; 1; 0; 1; 0; 0; 1; 1]%nat
      [Async.Start; Async.Start] fresh in
  log alternating.2
  = [EvInitSDK; EvInitSDK; EvCreateInstance; EvCreateInstance;
     EvGenerateKeypair true; EvGenerateKeypair true] ∧
  Async.count_event Async.is_createInstance alternating.2 = 2%nat ∧
  Async.count_event Async.is_generateKeypair alternating.2 = 2%nat ∧
  Async.count_event Async.is_createInstance first_finishes.2 = 2%nat ∧
  first_finishes.1
  = [Async.Done (Ok (Some (Stub.numbered_backend 0)));
     Async.Done (Ok (Some (Stub.numbered_backend 1)))] ∧
  Stub.numbered_backend 0 ≠ Stub.numbered_backend 1.
Proof.
  split_and!; try (vm_compute; reflexivity).
  intros Heq. apply (f_equal (λ r, SDK.publicDecrypt r [] [])) in Heq. discriminate.
Qed.

Section Rounds.

Context (W : World).

(** One round of the event loop over [m] calls that are all suspended at
    [p], after [k] calls that already moved on to [q]: when resuming at
    [p] leads to [q] and changes the state by [g] wherever [inv] holds,
    the round brings all of them to [q]. *)
Lemma run_round (p q : Async.pc) (g : state → state) (inv : state → Prop) :
  (∀ s, inv s → Async.resume W p s = (q, g s) ∧ inv (g s)) →
  ∀ m k rest s, inv s →
    Async.run W (seq k m ++ rest) (replicate k q ++ replicate m p) s
    = Async.run W rest (replicate (k + m) q) (Nat.iter m g s) ∧
    inv (Nat.iter m g s).
Proof.
  intros Hstep. induction m as [|m IH]; intros k rest s Hs.
  - simpl. by rewrite app_nil_r, Nat.add_0_r.
  - destruct (Hstep s Hs) as [Hres Hinv].
    cbn [seq app Async.run].
    rewrite lookup_app_r, length_replicate, Nat.sub_diag by (by rewrite length_replicate).
    cbn [replicate lookup list_lookup]. rewrite Hres.
    replace (<[k:=q]> (replicate k q ++ p :: replicate m p))
      with (replicate (S k) q ++ replicate m p).
    + destruct (IH (S k) rest (g s) Hinv) as [Hrun Hinv'].
      rewrite Hrun. replace (S k + m)%nat with (k + S m)%nat by lia.
      by rewrite Nat.iter_succ_r.
    + rewrite insert_app_r_alt, length_replicate, Nat.sub_diag
        by (by rewrite length_replicate).
      simpl. change (q :: replicate m p) with ([q] ++ replicate m p).
      by rewrite app_assoc, <- replicate_cons_app.
Qed.

Lemma run_full_round (p q : Async.pc) (g : state → state) (inv : state → Prop) :
  (∀ s, inv s → Async.resume W p s = (q, g s) ∧ inv (g s)) →
  ∀ n rest s, inv s →
    Async.run W (seq 0 n ++ rest) (replicate n p) s
    = Async.run W rest (replicate n q) (Nat.iter n g s).
Proof.
  intros Hstep n rest s Hs.
  by destruct (run_round p q g inv Hstep n 0%nat rest s Hs) as [Hrun _].
Qed.

End Rounds.

Lemma iter_invariant {A} (f : A → A) (inv : A → Prop) n x :
  (∀ y, inv y → inv (f y)) → inv x → inv (Nat.iter n f x).
Proof. intros Hf Hx. induction n; simpl; auto. Qed.

Lemma count_iter_logged P ev n s :
  Async.count_event P (Nat.iter n (logged ev) s)
  = (Async.count_event P s + if P ev then n else 0)%nat.
Proof.
  unfold Async.count_event. induction n as [|n IH]; simpl.
  - destruct (P ev); lia.
  - rewrite List.filter_app, length_app, IH. simpl. destruct (P ev); simpl; lia.
Qed.

Lemma count_iter_connected P n s :
  Async.count_event P (Nat.iter n connected s)
  = (Async.count_event P s + if P (EvGenerateKeypair true) then n else 0)%nat.
Proof.
  unfold Async.count_event. induction n as [|n IH]; simpl.
  - destruct (P _); lia.
  - rewrite List.filter_app, length_app, IH. simpl. destruct (P _); simpl; lia.
Qed.

Lemma count_iter_keyed P n s :
  Async.count_event P (Nat.iter n keyed s) = Async.count_event P s.
Proof. unfold Async.count_event. induction n as [|n IH]; simpl; auto. Qed.

(** C6, on the code.  [n] calls of [initRelayer] started on a fresh page
    before any of them resumes, then resumed in turn: every call finds
    [_relayer] unset and goes on to connect for itself, so when all have
    finished the backend instance was created [n] times and the keypair
    was generated [n] times, not once. *)
Theorem initRelayer_n_calls_in_flight (n : nat) :
  let schedule := seq 0 n ++ seq 0 n ++ seq 0 n ++ seq 0 n in
  let out := Async.run Stub.plain schedule (replicate n Async.Start) fresh in
  out.1 = replicate n (Async.Done (Ok (Some Stub.accepting))) ∧
  Async.count_event Async.is_createInstance out.2 = n ∧
  Async.count_event Async.is_generateKeypair out.2 = n.
Proof.
  intros schedule out. subst out schedule.
  destruct n as [|n]; [done|]. set (m := S n).
  rewrite (run_full_round Stub.plain Async.Start (Async.AwaitInitSDK (Ok ()))
             (logged EvInitSDK) (λ s, _relayer s = None)); [| |done].
  2:{ intros s Hs. simpl. by rewrite Hs. }
  rewrite (run_full_round Stub.plain (Async.AwaitInitSDK (Ok ()))
             (Async.AwaitCreateInstance (Ok Stub.accepting))
             (logged EvCreateInstance) (λ s, _ud_kp s = None)); [|done|].
  2:{ by apply (iter_invariant _ (λ s, _ud_kp s = None)). }
  rewrite (run_full_round Stub.plain (Async.AwaitCreateInstance (Ok Stub.accepting))
             (Async.AwaitKeypair (Ok Stub.keypair))
             connected (λ s, _ud_kp s = None)).
  2:{ intros s Hs. unfold connected. simpl. by rewrite !Hs. }
  2:{ by do 2 (apply (iter_invariant _ (λ s, _ud_kp s = None)); [done|]). }
  rewrite <- (app_nil_r (seq 0 m)).
  rewrite (run_full_round Stub.plain (Async.AwaitKeypair (Ok Stub.keypair))
             (Async.Done (Ok (Some Stub.accepting)))
             keyed (λ s, _relayer s = Some Stub.accepting)).
  2:{ intros s Hs. unfold keyed. simpl. by rewrite !Hs. }
  2:{ by subst m. }
  cbn [Async.run fst snd]. split; [done|].
  rewrite !count_iter_keyed, !count_iter_connected, !count_iter_logged.
  simpl. split; lia.
Qed.

(** * Further properties *)

(** ** Cleaning and normalizing addresses *)

Lemma trimStart_split s :
  ∃ blanks, s = blanks ++ trimStart s ∧
            Forall (λ c, is_space c = true) blanks ∧
            (trimStart s = [] ∨ ∃ c rest, trimStart s = c :: rest ∧ is_space c = false).
Proof.
  induction s as [|c s IH]; simpl.
  - exists []. split_and!; [done|constructor|by left].
  - destruct (is_space c) eqn:Hc.
    + destruct IH as (blanks & Heq & Hblanks & Hhead).
      exists (c :: blanks). split_and!; [by rewrite <- app_comm_cons, <- Heq|by constructor|done].
    + exists []. split_and!; [done|constructor|right; eauto].
Qed.

Lemma trimStart_fixed c rest :
  is_space c = false → trimStart (c :: rest) = c :: rest.
Proof. intros H. simpl. by rewrite H. Qed.

Lemma trimEnd_split s :
  ∃ blanks, s = trimEnd s ++ blanks ∧
            Forall (λ c, is_space c = true) blanks ∧
            (trimEnd s = [] ∨ ∃ front c, trimEnd s = front ++ [c] ∧ is_space c = false).
Proof.
  unfold trimEnd. destruct (trimStart_split (rev s)) as (blanks & Heq & Hblanks & Hhead).
  exists (rev blanks). split_and!.
  - rewrite <- rev_app_distr, <- Heq. by rewrite rev_involutive.
  - by apply Forall_rev.
  - destruct Hhead as [->|(c & rest & -> & Hc)]; [by left|].
    right. by exists (rev rest), c.
Qed.

Lemma trimEnd_fixed front c :
  is_space c = false → trimEnd (front ++ [c]) = front ++ [c].
Proof.
  intros H. unfold trimEnd. rewrite rev_app_distr. simpl. rewrite H.
  change (c :: rev front) with ([c] ++ rev front).
  by rewrite rev_app_distr, rev_involutive.
Qed.

(** A trimmed string is empty, or begins and ends with a code unit that
    is not a blank. *)
Lemma trim_shape s :
  trim s = [] ∨
  ∃ c rest front d, trim s = c :: rest ∧ trim s = front ++ [d] ∧
                    is_space c = false ∧ is_space d = false.
Proof.
  unfold trim.
  destruct (trimStart_split s) as (_ & _ & _ & Hstart).
  destruct Hstart as [->|(c & rest & Hs & Hc)]; [by left|].
  rewrite Hs.
  destruct (trimEnd_split (c :: rest)) as (blanks & Heq & _ & Hend).
  destruct Hend as [Hnil|(front & d & Hfd & Hd)]; [by left|].
  right. rewrite Hfd in *.
  destruct front as [|c' front']; simpl in *.
  - injection Heq as -> _. by exists d, [], [], d.
  - injection Heq as -> _. by exists c', (front' ++ [d]), (c' :: front'), d.
Qed.

Lemma trim_idempotent s : trim (trim s) = trim s.
Proof.
  destruct (trim_shape s) as [->|(c & rest & front & d & Hhead & Hlast & Hc & Hd)];
    [done|].
  unfold trim at 1. rewrite Hhead at 1. rewrite (trimStart_fixed c rest Hc).
  rewrite <- Hhead, Hlast. by apply trimEnd_fixed.
Qed.

Lemma trim_no_blank s :
  Forall (λ c, is_space c = false) s → trim s = s.
Proof.
  intros Hs. destruct s as [|c rest]; [done|].
  unfold trim. rewrite trimStart_fixed by (by inversion Hs).
  destruct (exists_last (l := c :: rest)) as (front & d & Heq); [done|].
  rewrite Heq in *. apply trimEnd_fixed.
  apply Forall_app in Hs as [_ Hd]. by inversion Hd.
Qed.

Lemma strip_u200b_sublist s c : c ∈ strip_u200b s → c ≠ 8203%N ∧ c ∈ s.
Proof.
  unfold strip_u200b. rewrite list_elem_of_In, filter_In, <- list_elem_of_In.
  intros [Hin Hne]. split; [|done].
  intros ->. by rewrite N.eqb_refl in Hne.
Qed.

Lemma strip_u200b_fixed s : (8203%N ∉ s) → strip_u200b s = s.
Proof.
  intros Hs. unfold strip_u200b. induction s as [|c s IH]; [done|].
  apply not_elem_of_cons in Hs as [Hc Hs]. simpl.
  destruct (N.eqb_spec c 8203) as [->|_]; [done|].
  simpl. by rewrite IH.
Qed.

Lemma trim_sublist s c : c ∈ trim s → c ∈ s.
Proof.
  intros Hc. unfold trim in *.
  destruct (trimStart_split s) as (b1 & H1 & _).
  destruct (trimEnd_split (trimStart s)) as (b2 & H2 & _).
  rewrite H1, H2. set_solver.
Qed.

(** Cleaning twice is cleaning once. *)
Lemma clean_idempotent a : clean (clean a) = clean a.
Proof.
  unfold clean. rewrite strip_u200b_fixed.
  - apply trim_idempotent.
  - intros Hin. apply trim_sublist, strip_u200b_sublist in Hin as [Hne _]. done.
Qed.

(** X1.  [addressVariants] sees its argument through the cleaning only:
    blanks around an address and ZERO WIDTH SPACEs anywhere in it do not
    change the candidates. *)
Theorem addressVariants_of_clean (W : World) (a : list N) :
  addressVariants W (clean a) = addressVariants W a.
Proof.
  unfold addressVariants. fold (clean (clean a)). fold (clean a).
  by rewrite clean_idempotent.
Qed.

Ltac bool_to_prop :=
  unfold is_space, is_hex, is_hex_lower, is_digit, lower in *;
  rewrite ?orb_true_iff, ?andb_true_iff, ?orb_false_iff, ?andb_false_iff,
    ?N.leb_le, ?N.eqb_eq, ?N.leb_gt, ?N.eqb_neq in *.

Lemma is_hex_range c :
  is_hex c = true → (48 ≤ c ≤ 57 ∨ 97 ≤ c ≤ 102 ∨ 65 ≤ c ≤ 70)%N.
Proof. intros H. bool_to_prop. lia. Qed.

Lemma is_space_range c :
  is_space c = true → (9 ≤ c ≤ 13 ∨ c = 32 ∨ 160 ≤ c)%N.
Proof. intros H. bool_to_prop. lia. Qed.

Lemma address_unit_plain c :
  (c = 48 ∨ c = 120 ∨ is_hex c = true)%N → is_space c = false ∧ c ≠ 8203%N.
Proof.
  intros H. split.
  - apply not_true_is_false. intros Hs%is_space_range.
    destruct H as [->| [->|H%is_hex_range]]; lia.
  - destruct H as [->| [->|H%is_hex_range]]; lia.
Qed.

Lemma test_address_inv s :
  test_address s = true →
  ∃ ds, s = 48%N :: 120%N :: ds ∧ length ds = 40%nat ∧ forallb is_hex ds = true.
Proof.
  unfold test_address. intros H. repeat (case_match; try done); subst.
  apply andb_true_iff in H as [Hlen Hds]. apply Nat.eqb_eq in Hlen. by eexists.
Qed.

Lemma test_address_units s :
  test_address s = true →
  Forall (λ c, (c = 48 ∨ c = 120 ∨ is_hex c = true)%N) s.
Proof.
  intros (ds & -> & _ & Hds)%test_address_inv. rewrite forallb_forall in Hds.
  constructor; [by left|]. constructor; [by right; left|].
  apply Forall_forall. intros c Hc. right. right. apply Hds. by apply list_elem_of_In.
Qed.

(** A string that matches the address pattern is left as it is by the
    cleaning. *)
Lemma clean_address s : test_address s = true → clean s = s.
Proof.
  intros Hs%test_address_units. unfold clean.
  rewrite strip_u200b_fixed.
  - apply trim_no_blank. eapply Forall_impl; [exact Hs|].
    intros c Hc. by apply address_unit_plain.
  - intros Hin. rewrite Forall_forall in Hs.
    by destruct (address_unit_plain _ (Hs _ Hin)).
Qed.

Lemma lower_hex c : is_hex c = true → is_hex_lower (lower c) = true.
Proof.
  intros H%is_hex_range. unfold lower.
  destruct ((65 <=? c) && (c <=? 90))%N eqn:Hup; bool_to_prop; lia.
Qed.

(** Lower-casing a string that matches the address pattern gives one
    that matches the lowercase pattern. *)
Lemma toLowerCase_address s :
  test_address s = true → test_address_lower (toLowerCase s) = true.
Proof.
  intros (ds & -> & Hlen & Hds)%test_address_inv. rewrite forallb_forall in Hds.
  unfold toLowerCase. cbn [List.map]. change (lower 48) with 48%N.
  change (lower 120) with 120%N. cbn [test_address_lower].
  rewrite length_map, Hlen. simpl. apply forallb_forall.
  intros c [c' [<- Hc']]%in_map_iff. apply lower_hex. auto.
Qed.

Lemma set_spread_length seen xs : (length (set_spread seen xs) ≤ length xs)%nat.
Proof.
  revert seen. induction xs as [|x xs IH]; intros seen; simpl; [done|].
  case_bool_decide; simpl; [specialize (IH seen)|specialize (IH (x :: seen))]; lia.
Qed.

Section Normalizer.

Context (W : World).

(** The list before deduplication: what was pushed, in order. *)
Lemma addressVariants_pushed a :
  ∃ pushed,
    addressVariants W a = set_spread [] pushed ∧
    (length pushed ≤ 2)%nat ∧
    (∀ c, c ∈ pushed ↔
       (test_address_lower (toLowerCase (clean a)) = true ∧ c = toLowerCase (clean a)) ∨
       (test_address c = true ∧
        (canonical W (clean a) = Some c ∨
         (ethers_getAddress W = None ∧ c = clean a)))).
Proof.
  unfold addressVariants, canonical. fold (clean a).
  set (raw := clean a). set (lc := toLowerCase raw). clearbody lc. clearbody raw.
  assert (Hpushed : ∀ l : list (list N), (length l ≤ 2)%nat →
    ∀ P : list N → Prop, (∀ c, c ∈ l ↔ P c) →
    ∃ pushed, set_spread [] l = set_spread [] pushed ∧
              (length pushed ≤ 2)%nat ∧ ∀ c, c ∈ pushed ↔ P c) by eauto.
  destruct (ethers_getAddress W) as [g|].
  - destruct (g raw) as [cs|e].
    + destruct (test_address cs) eqn:Hcs; destruct (test_address_lower lc) eqn:Hlc;
        cbn [app]; apply Hpushed; [simpl; lia| |simpl; lia| |simpl; lia| |simpl; lia|];
        intros c; rewrite ?elem_of_cons, ?elem_of_nil;
        intuition (simplify_eq; eauto; congruence).
    + destruct (test_address_lower lc) eqn:Hlc;
        cbn [app]; apply Hpushed; [simpl; lia| |simpl; lia|];
        intros c; rewrite ?elem_of_cons, ?elem_of_nil;
        intuition (simplify_eq; eauto; congruence).
  - destruct (test_address raw) eqn:Hraw; destruct (test_address_lower lc) eqn:Hlc;
      cbn [app]; apply Hpushed; [simpl; lia| |simpl; lia| |simpl; lia| |simpl; lia|];
      intros c; rewrite ?elem_of_cons, ?elem_of_nil;
        intuition (simplify_eq; eauto; congruence).
Qed.

Lemma addressVariants_length (a : list N) :
  (length (addressVariants W a) ≤ 2)%nat.
Proof.
  destruct (addressVariants_pushed a) as (pushed & -> & Hlen & _).
  pose proof (set_spread_length [] pushed). lia.
Qed.

(** Where a candidate comes from. *)
Lemma addressVariants_elem (a c : list N) :
  c ∈ addressVariants W a →
  test_address c = true ∧
  (c = toLowerCase (clean a) ∨ canonical W (clean a) = Some c ∨
   (ethers_getAddress W = None ∧ c = clean a)).
Proof.
  destruct (addressVariants_pushed a) as (pushed & -> & _ & Hin).
  intros [Hc _]%set_spread_elem. apply Hin in Hc as [[Hlc ->]|[Hc Hsrc]].
  - split; [by apply test_address_lower_address|by left].
  - split; [done|by right].
Qed.

(** X2.  For every input, valid or not, [addressVariants] returns at most
    two candidates without duplicates; each of them matches the address
    pattern and is the lowercase form of the cleaned input, or what
    [ethers.getAddress] made of the cleaned input, or (without ethers) the
    cleaned input itself.  The result is empty only if the lowercase form
    does not match. *)
Theorem addressVariants_sound (a : list N) :
  let out := addressVariants W a in
  NoDup out ∧ (length out ≤ 2)%nat ∧
  (∀ c, c ∈ out →
     test_address c = true ∧
     (c = toLowerCase (clean a) ∨ canonical W (clean a) = Some c ∨
      (ethers_getAddress W = None ∧ c = clean a))) ∧
  (out = [] → test_address_lower (toLowerCase (clean a)) = false).
Proof.
  intros out. subst out.
  split_and!; [|apply addressVariants_length|apply addressVariants_elem|].
  - destruct (addressVariants_pushed a) as (pushed & -> & _ & _).
    apply set_spread_NoDup.
  - destruct (addressVariants_pushed a) as (pushed & -> & Hlen & Hin).
    intros Hempty. apply not_true_is_false. intros Hlc.
    assert (Hmem : toLowerCase (clean a) ∈ set_spread [] pushed).
    { apply set_spread_elem. split; [|apply not_elem_of_nil]. apply Hin. by left. }
    rewrite Hempty in Hmem. by apply not_elem_of_nil in Hmem.
Qed.

(** X3.  Every candidate is itself an acceptable address: normalizing a
    candidate yields its lowercase form (among at most two candidates), so
    a candidate fed back to the module is never found invalid. *)
Theorem addressVariants_candidate_accepted (a c : list N) :
  c ∈ addressVariants W a →
  toLowerCase c ∈ addressVariants W c ∧ addressVariants W c ≠ [].
Proof.
  intros Hc. destruct (addressVariants_elem a c Hc) as [Hpat _].
  assert (Hin : toLowerCase c ∈ addressVariants W c).
  { destruct (addressVariants_pushed c) as (pushed & -> & _ & Hin).
    apply set_spread_elem. split; [|apply not_elem_of_nil].
    apply Hin. left. rewrite (clean_address _ Hpat).
    split; [by apply toLowerCase_address|done]. }
  split; [done|]. intros Hnil. rewrite Hnil in Hin. by apply not_elem_of_nil in Hin.
Qed.

End Normalizer.

Lemma addressVariants_candidate_accepted_witness :
  Stub.contract ∈ addressVariants Stub.plain (32%N :: Stub.contract) ∧
  Stub.contract_lc ∈ addressVariants Stub.plain Stub.contract.
Proof.
  assert (Hc : Stub.contract ∈ addressVariants Stub.plain (32%N :: Stub.contract)).
  { vm_compute. by left. }
  split; [exact Hc|].
  exact (proj1 (addressVariants_candidate_accepted Stub.plain _ _ Hc)).
Defined.

Lemma addressVariants_sound_witness :
  addressVariants Stub.plain (js "0x12") = [] ∧
  test_address_lower (toLowerCase (clean (js "0x12"))) = false.
Proof.
  split; [reflexivity|].
  apply (proj2 (proj2 (proj2 (addressVariants_sound Stub.plain (js "0x12"))))).
  reflexivity.
Defined.

(** ** Rules for specifications *)

Section Rules.

Context {A B : Type}.
Implicit Types (pre post inv : option SDK.Instance * option Keypair → Prop).
Implicit Types (P Q : event → bool).

Lemma triple_ret pre post P (a : A) :
  (∀ c, pre c → post c) → triple pre P (mret a) post.
Proof. intros H s Hs. split; [by apply H|]. exists []. by rewrite app_nil_r. Qed.

Lemma triple_throw pre post P (e : jsval) :
  (∀ c, pre c → post c) → triple pre P (mthrow e : M A) post.
Proof. intros H s Hs. split; [by apply H|]. exists []. by rewrite app_nil_r. Qed.

Lemma triple_lift pre post P (r : result A) :
  (∀ c, pre c → post c) → triple pre P (lift r) post.
Proof. intros H s Hs. split; [by apply H|]. exists []. by rewrite app_nil_r. Qed.

Lemma triple_call pre post P ev (stub : history → result A) :
  (∀ c, pre c → post c) → P ev = true → triple pre P (call ev stub) post.
Proof.
  intros H Hev s Hs. split; [by apply H|]. exists [ev]. simpl. by rewrite Hev.
Qed.

Lemma triple_bind pre inv P (m : M A) (k : A → M B) :
  triple pre P m inv → (∀ a, triple inv P (k a) inv) → triple pre P (m ≫= k) inv.
Proof.
  intros Hm Hk s Hs. destruct (Hm s Hs) as (Hinv & evs & Hlog & Hevs).
  unfold mbind, M_bind. destruct (m s) as [[a|e] s1]; simpl in *.
  - destruct (Hk a s1 Hinv) as (Hinv' & evs' & Hlog' & Hevs').
    split; [done|]. exists (evs ++ evs').
    by rewrite Hlog', Hlog, app_assoc, forallb_app, Hevs, Hevs'.
  - split; [done|]. by exists evs.
Qed.

Lemma triple_try_catch pre inv P (m : M A) (handler : jsval → M A) :
  triple pre P m inv → (∀ e, triple inv P (handler e) inv) →
  triple pre P (try_catch m handler) inv.
Proof.
  intros Hm Hh s Hs. destruct (Hm s Hs) as (Hinv & evs & Hlog & Hevs).
  unfold try_catch. destruct (m s) as [[a|e] s1]; simpl in *.
  - split; [done|]. by exists evs.
  - destruct (Hh e s1 Hinv) as (Hinv' & evs' & Hlog' & Hevs').
    split; [done|]. exists (evs ++ evs').
    by rewrite Hlog', Hlog, app_assoc, forallb_app, Hevs, Hevs'.
Qed.

Lemma triple_consequence pre pre' post post' P Q (m : M A) :
  (∀ c, pre' c → pre c) → (∀ c, post c → post' c) →
  (∀ ev, P ev = true → Q ev = true) →
  triple pre P m post → triple pre' Q m post'.
Proof.
  intros Hpre Hpost HPQ Hm s Hs.
  destruct (Hm s (Hpre _ Hs)) as (Hp & evs & Hlog & Hevs).
  split; [by apply Hpost|]. exists evs. split; [done|].
  rewrite forallb_forall in *. auto.
Qed.

(** Reading a module variable tells the continuation its value. *)
Lemma triple_get__relayer pre inv P (k : option SDK.Instance → M A) :
  (∀ c, pre c → inv c) →
  (∀ a, triple (λ c, pre c ∧ c.1 = a) P (k a) inv) →
  triple pre P (get__relayer ≫= k) inv.
Proof.
  intros _ Hk s Hs. unfold mbind, M_bind, get__relayer.
  by apply (Hk (_relayer s) s).
Qed.

Lemma triple_get__ud_kp pre inv P (k : option Keypair → M A) :
  (∀ a, triple (λ c, pre c ∧ c.2 = a) P (k a) inv) →
  triple pre P (get__ud_kp ≫= k) inv.
Proof.
  intros Hk s Hs. unfold mbind, M_bind, get__ud_kp.
  by apply (Hk (_ud_kp s) s).
Qed.

Lemma triple_set__relayer pre post P (r : SDK.Instance) :
  (∀ c, pre c → post (Some r, c.2)) → triple pre P (set__relayer r) post.
Proof.
  intros H s Hs. split; [by apply (H _ Hs)|]. exists []. simpl. by rewrite app_nil_r.
Qed.

Lemma triple_set__ud_kp pre post P (kp : Keypair) :
  (∀ c, pre c → post (c.1, Some kp)) → triple pre P (set__ud_kp kp) post.
Proof.
  intros H s Hs. split; [by apply (H _ Hs)|]. exists []. simpl. by rewrite app_nil_r.
Qed.

Lemma triple_false P (m : M A) post : triple (λ _, False) P m post.
Proof. by intros s Hs. Qed.

Lemma steady_triple pre P (m : M A) :
  steady P m → triple pre P m pre.
Proof.
  intros Hm s Hs. destruct (Hm (cache s) s eq_refl) as (Hc & Hevs).
  split; [by rewrite Hc|done].
Qed.

Lemma steady_ret P (a : A) : steady P (mret a).
Proof. intros c. by apply triple_ret. Qed.

Lemma steady_throw P (e : jsval) : steady P (mthrow e : M A).
Proof. intros c. by apply triple_throw. Qed.

Lemma steady_lift P (r : result A) : steady P (lift r).
Proof. intros c. by apply triple_lift. Qed.

Lemma steady_call P ev (stub : history → result A) :
  P ev = true → steady P (call ev stub).
Proof. intros H c. by apply triple_call. Qed.

Lemma steady_bind P (m : M A) (k : A → M B) :
  steady P m → (∀ a, steady P (k a)) → steady P (m ≫= k).
Proof. intros Hm Hk c. apply triple_bind; [apply Hm|intros a; apply Hk]. Qed.

Lemma steady_try_catch P (m : M A) (handler : jsval → M A) :
  steady P m → (∀ e, steady P (handler e)) → steady P (try_catch m handler).
Proof. intros Hm Hh c. apply triple_try_catch; [apply Hm|intros e; apply Hh]. Qed.

Lemma steady_weaken P Q (m : M A) :
  (∀ ev, P ev = true → Q ev = true) → steady P m → steady Q m.
Proof.
  intros HPQ Hm c.
  eapply (triple_consequence _ _ _ _ P Q); [| |exact HPQ|apply (Hm c)]; auto.
Qed.

End Rules.

(** One step of a proof that a computation is [steady]. *)
Ltac steady_step :=
  lazymatch goal with
  | |- steady _ (mret _) => apply steady_ret
  | |- steady _ (mthrow _) => apply steady_throw
  | |- steady _ (lift _) => apply steady_lift
  | |- steady _ (call _ _) => apply steady_call; try reflexivity
  | |- steady _ (mbind _ _) => apply steady_bind; [|intros ?]
  | |- steady _ (try_catch _ _) => apply steady_try_catch; [|intros ?]
  | |- steady _ (match ?x with _ => _ end) => destruct x
  | |- steady _ (let _ := _ in _) => cbv zeta
  end.

(** ** Specifications of the helpers *)

Lemma new_events_spec {A} (m : M A) s evs :
  log (m s).2 = log s ++ evs → new_events m s = evs.
Proof. intros H. unfold new_events. by rewrite H, drop_app_length. Qed.

Lemma triple_new_events {A} pre P (m : M A) post s :
  triple pre P m post → pre (cache s) →
  post (cache (m s).2) ∧ log (m s).2 = log s ++ new_events m s ∧
  forallb P (new_events m s) = true.
Proof.
  intros Hm Hs. destruct (Hm s Hs) as (Hpost & evs & Hlog & Hevs).
  by rewrite (new_events_spec _ _ _ Hlog).
Qed.

Lemma steady_ext {A} P (m m' : M A) :
  (∀ s, m s = m' s) → steady P m' → steady P m.
Proof. intros Heq Hm c s Hs. rewrite Heq. by apply Hm. Qed.

Lemma encrypt_event_for_mono caList uaList caList' uaList' v ev :
  caList ⊆ caList' → uaList ⊆ uaList' →
  encrypt_event_for caList uaList v ev = true →
  encrypt_event_for caList' uaList' v ev = true.
Proof.
  intros Hca Hua. destruct ev; simpl; try done;
    rewrite ?andb_true_iff, ?bool_decide_eq_true; intuition auto.
Qed.

Section Helpers.

Context (W : World).

Lemma ensureUserAddress_steady user :
  steady is_account_query (ensureUserAddress W user).
Proof.
  unfold ensureUserAddress. cbv zeta. destruct (negb _); [apply steady_ret|].
  destruct (ethereum W) as [eth|]; [|apply steady_throw].
  apply steady_bind; [by apply steady_call|]. intros accs.
  destruct accs as [[|acc0 ?]|]; try apply steady_throw.
  destruct (bool_decide _); [apply steady_throw|apply steady_ret].
Qed.

(** A user address that is not blank is returned after trimming, without
    any call. *)
Lemma ensureUserAddress_given user s :
  trim (default [] user) ≠ [] →
  ensureUserAddress W user s = (Ok (trim (default [] user)), s).
Proof.
  intros H. unfold ensureUserAddress. cbv zeta.
  by rewrite bool_decide_eq_false_2.
Qed.

Lemma attachExtraData_steady enc ca ua v :
  steady (encrypt_event_for [ca] [ua] v) (attachExtraData W enc ca ua).
Proof.
  assert (Hchain : ∀ x, truthy (or_else x (VString (js "0xaa36a7"))) = true).
  { intros x. unfold or_else. by destruct (truthy x) eqn:Hx. }
  unfold attachExtraData. cbv zeta.
  destruct (SDK.setExtraData enc); apply steady_call; simpl;
    rewrite Hchain, !bool_decide_eq_true_2; try done; by apply list_elem_of_singleton.
Qed.

Lemma doEncrypt_steady enc caList uaList v :
  steady (encrypt_event_for caList uaList v) (doEncrypt enc v).
Proof.
  unfold doEncrypt.
  apply steady_bind; [apply steady_call; simpl; by rewrite bool_decide_eq_true_2|].
  intros _. apply steady_bind; [by apply steady_call|]. intros out. cbv zeta.
  destruct (negb _); [apply steady_throw|].
  destruct (negb _); [apply steady_throw|apply steady_ret].
Qed.

Lemma attempt_steady r shape ca ua v :
  steady (encrypt_event_for [ca] [ua] v) (attempt W r shape ca ua v).
Proof.
  unfold attempt. apply steady_bind.
  - apply steady_call. simpl.
    rewrite !bool_decide_eq_true_2; try done; by apply list_elem_of_singleton.
  - intros enc. apply steady_bind; [apply attachExtraData_steady|].
    intros _. apply doEncrypt_steady.
Qed.

Lemma first_success_steady r v caList uaList l e :
  Forall (λ a, a.1.2 ∈ caList ∧ a.2 ∈ uaList) l →
  steady (encrypt_event_for caList uaList v) (first_success W r v l e).
Proof.
  intros Hl. revert e. induction Hl as [|[[shape ca] ua] l [Hca Hua] Hl IH]; intros e.
  - apply steady_ret.
  - cbn [first_success]. apply steady_try_catch; [|apply IH].
    apply steady_bind; [|intros x; apply steady_ret].
    eapply steady_weaken; [|apply attempt_steady].
    intros ev. apply encrypt_event_for_mono; intros x ->%list_elem_of_singleton; done.
Qed.

Lemma attempts_members caList uaList :
  Forall (λ a, a.1.2 ∈ caList ∧ a.2 ∈ uaList) (attempts caList uaList).
Proof.
  apply Forall_forall. intros [[shape ca] ua] Hin. unfold attempts in Hin.
  apply list_elem_of_In, in_flat_map in Hin as (ca' & Hca & Hin).
  apply in_flat_map in Hin as (ua' & Hua & Hin).
  rewrite <- !list_elem_of_In in *.
  apply elem_of_cons in Hin as [Heq|Hin];
    [|apply list_elem_of_singleton in Hin as Heq]; by simplify_eq.
Qed.

Lemma for_ca_steady r v caList uaList e :
  steady (encrypt_event_for caList uaList v) (for_ca W r caList uaList v e).
Proof.
  eapply steady_ext; [intros s; apply for_ca_first_success|].
  apply first_success_steady, attempts_members.
Qed.

Lemma _getSignerAndUser_steady :
  steady is_signer_setup (_getSignerAndUser W).
Proof.
  unfold _getSignerAndUser. destruct (ethereum W); [|apply steady_throw].
  repeat (first [apply steady_bind; [by apply steady_call|intros ?] | apply steady_ret]).
Qed.

Lemma prepare_keypair_triple r inv P :
  (∀ c kp, inv c → inv (c.1, Some kp)) →
  (∀ b, P (EvGenerateKeypair b) = true) →
  triple inv P (prepare_keypair W r) inv.
Proof.
  intros Hinv HP. unfold prepare_keypair.
  destruct (SDK.generateKeypair r) as [gen|];
    (apply triple_bind; [by apply triple_call|]);
    intros kp; apply triple_set__ud_kp; auto.
Qed.

(** [initRelayer] only makes session calls, whatever the cache holds. *)
Lemma initRelayer_session_calls :
  triple (λ _, True) is_session_event (initRelayer W) (λ _, True).
Proof.
  unfold initRelayer. apply triple_get__relayer; [done|]. intros cached.
  eapply triple_consequence with (pre := λ _, True) (post := λ _, True)
    (P := is_session_event); [done..|].
  destruct cached; [by apply triple_ret|].
  destruct (ethereum W); [|by apply triple_throw].
  apply triple_bind; [by apply triple_call|]. intros _.
  apply triple_bind; [by apply triple_call|]. intros inst.
  apply triple_bind; [by apply triple_set__relayer|]. intros _.
  apply triple_get__ud_kp. intros kp.
  eapply triple_consequence with (pre := λ _, True) (post := λ _, True)
    (P := is_session_event); [done..|].
  apply triple_bind; [|intros _; by apply triple_ret].
  destruct kp; [by apply triple_ret|by apply prepare_keypair_triple].
Qed.

(** [initRelayer] never replaces a keypair: started with one, it makes
    no keypair call and leaves it in place. *)
Lemma initRelayer_keeps_keypair kp0 :
  triple (λ c, c.2 = Some kp0)
         (λ ev, is_connect_event ev)
         (initRelayer W)
         (λ c, c.2 = Some kp0).
Proof.
  unfold initRelayer. apply triple_get__relayer; [done|]. intros cached.
  eapply triple_consequence with (pre := λ c, c.2 = Some kp0)
    (post := λ c, c.2 = Some kp0) (P := is_connect_event);
    [by intros c [? _]|done..|].
  destruct cached; [by apply triple_ret|].
  destruct (ethereum W); [|by apply triple_throw].
  apply triple_bind; [by apply triple_call|]. intros _.
  apply triple_bind; [by apply triple_call|]. intros inst.
  apply triple_bind; [by apply triple_set__relayer|]. intros _.
  apply triple_get__ud_kp. intros kp.
  apply triple_bind; [|intros _; by apply triple_ret].
  destruct kp; [apply triple_ret; by intros c [? _]|].
  apply (triple_consequence (λ _, False) _ (λ c, c.2 = Some kp0) _
           is_connect_event);
    [intros c [H1 H2]; simpl in *; congruence|done|done|apply triple_false].
Qed.

End Helpers.

(** ** What [encrypt64For] does and never does *)

Section EncryptCalls.

Context (W : World).

(** [encrypt64For] in three parts: the session, the user address, and the
    candidate matrix, which leaves the cache alone and only works on
    encrypted inputs for the candidates and the value. *)
Lemma encrypt64For_parts contract user v s :
  match initRelayer W s with
  | (Throw e, s1) => encrypt64For W contract user v s = (Throw e, s1)
  | (Ok r, s1) =>
      match ensureUserAddress W user s1 with
      | (Throw e, s2) => encrypt64For W contract user v s = (Throw e, s2)
      | (Ok uaRaw, s2) =>
          cache (encrypt64For W contract user v s).2 = cache s2 ∧
          ∃ evs, log (encrypt64For W contract user v s).2 = log s2 ++ evs ∧
                 forallb (encrypt_event_for (addressVariants W contract)
                            (addressVariants W uaRaw) v) evs = true
      end
  end.
Proof.
  destruct (initRelayer W s) as [[r|e] s1] eqn:Hinit;
    [|by unfold encrypt64For, mbind, M_bind; rewrite Hinit].
  destruct (ensureUserAddress W user s1) as [[uaRaw|e] s2] eqn:Hua;
    [|by unfold encrypt64For, mbind, M_bind; rewrite Hinit, Hua].
  rewrite (encrypt64For_run W _ _ _ _ _ _ _ _ Hinit Hua).
  case_bool_decide; [split; [done|]; exists []; by rewrite app_nil_r|].
  case_bool_decide; [split; [done|]; exists []; by rewrite app_nil_r|].
  destruct (first_success_steady W r v (addressVariants W contract)
              (addressVariants W uaRaw) _ VUndefined (attempts_members _ _)
              (cache s2) s2 eq_refl) as (Hcache & evs & Hlog & Hevs).
  destruct (first_success _ _ _ _ _ _) as [[[x|e]|e] s3]; simpl in *; eauto.
Qed.

Lemma forallb_impl {X} (P Q : X → bool) l :
  (∀ x, P x = true → Q x = true) → forallb P l = true → forallb Q l = true.
Proof. rewrite !forallb_forall. auto. Qed.

(** X4.  Every call [encrypt64For] makes on an encrypted input, after the
    session and the user address are there, is for a candidate of the
    given contract address and a candidate of the resolved user address:
    inputs are created for such pairs only, the metadata attached names
    the pair and a chain id that is never missing, and the only value ever
    added is the one given. *)
Theorem encrypt64For_request_integrity contract user v s r s1 uaRaw s2 :
  initRelayer W s = (Ok r, s1) →
  ensureUserAddress W user s1 = (Ok uaRaw, s2) →
  cache (encrypt64For W contract user v s).2 = cache s2 ∧
  ∃ evs, log (encrypt64For W contract user v s).2 = log s2 ++ evs ∧
         forallb (encrypt_event_for (addressVariants W contract)
                    (addressVariants W uaRaw) v) evs = true.
Proof.
  intros Hinit Hua. pose proof (encrypt64For_parts contract user v s) as H.
  by rewrite Hinit, Hua in H.
Qed.

(** X5.  [encrypt64For] never opens a wallet prompt and never calls a
    typed-data or decrypt endpoint: its calls are session calls, the
    account query and calls on encrypted inputs.  With a user address
    given, it makes no wallet call at all. *)
Theorem encrypt64For_never_prompts contract user v s :
  let evs := new_events (encrypt64For W contract user v) s in
  log (encrypt64For W contract user v s).2 = log s ++ evs ∧
  forallb (λ ev, is_session_event ev || is_account_query ev || is_builder_event ev)
    evs = true ∧
  forallb (λ ev, negb (is_prompt_event ev) && negb (is_decrypt_event ev)) evs = true ∧
  (trim (default [] user) ≠ [] →
   forallb (λ ev, negb (is_wallet_event ev)) evs = true).
Proof.
  intros evs. subst evs.
  destruct (initRelayer_session_calls W s I) as (_ & evs1 & Hlog1 & Hevs1).
  pose proof (encrypt64For_parts contract user v s) as H.
  assert (Hsplit : ∃ evs2 evs3,
    log (encrypt64For W contract user v s).2 = log s ++ evs1 ++ evs2 ++ evs3 ∧
    forallb is_account_query evs2 = true ∧
    (trim (default [] user) ≠ [] → evs2 = []) ∧
    forallb is_builder_event evs3 = true).
  { destruct (initRelayer W s) as [[r|e] s1]; simpl in *.
    2:{ exists [], []. by rewrite H, app_nil_r. }
    destruct (ensureUserAddress_steady W user (cache s1) s1 eq_refl)
      as (_ & evs2 & Hlog2 & Hevs2).
    pose proof (ensureUserAddress_given W user s1) as Hgiven.
    assert (Hnone : trim (default [] user) ≠ [] → evs2 = []).
    { intros Hne. rewrite (Hgiven Hne) in Hlog2. simpl in Hlog2.
      apply (app_inv_head (log s1)). by rewrite app_nil_r. }
    destruct (ensureUserAddress W user s1) as [[uaRaw|e] s2]; simpl in *.
    2:{ exists evs2, []. by rewrite H, app_nil_r; simpl; rewrite Hlog2, Hlog1, app_assoc. }
    destruct H as (_ & evs3 & Hlog3 & Hevs3). exists evs2, evs3.
    split_and!; [by rewrite Hlog3, Hlog2, Hlog1, !app_assoc|done..|].
    eapply forallb_impl; [|exact Hevs3]. by intros []. }
  destruct Hsplit as (evs2 & evs3 & Hlog & Hevs2 & Hgiven & Hevs3).
  rewrite (new_events_spec _ s _ Hlog). split; [done|].
  split_and!.
  - rewrite !forallb_app, !andb_true_iff. split_and!.
    + eapply forallb_impl; [|exact Hevs1]. by intros [].
    + eapply forallb_impl; [|exact Hevs2]. by intros [].
    + eapply forallb_impl; [|exact Hevs3]. by intros [].
  - rewrite !forallb_app, !andb_true_iff. split_and!.
    + eapply forallb_impl; [|exact Hevs1]. by intros [].
    + eapply forallb_impl; [|exact Hevs2]. by intros [].
    + eapply forallb_impl; [|exact Hevs3]. by intros [].
  - intros Hne. rewrite (Hgiven Hne). rewrite !forallb_app, !andb_true_iff. split_and!.
    + eapply forallb_impl; [|exact Hevs1]. by intros [].
    + done.
    + eapply forallb_impl; [|exact Hevs3]. by intros [].
Qed.

End EncryptCalls.

Lemma encrypt64For_request_integrity_witness :
  let W := Stub.lowercase_positional_only in
  let s1 := (initRelayer W fresh).2 in
  let run := encrypt64For W Stub.contract (Some Stub.account) 500 fresh in
  initRelayer W fresh = (Ok Stub.lowercase_backend, s1) ∧
  ensureUserAddress W (Some Stub.account) s1 = (Ok Stub.account, s1) ∧
  forallb (encrypt_event_for [Stub.contract; Stub.contract_lc] [Stub.account] 500)
    (drop 3 (log run.2)) = true.
Proof.
  intros W s1 run. split; [reflexivity|]. split; [reflexivity|].
  destruct (encrypt64For_request_integrity W Stub.contract (Some Stub.account) 500
              fresh Stub.lowercase_backend s1 Stub.account s1 eq_refl eq_refl)
    as (_ & evs & Hlog & Hevs).
  fold run in Hlog. rewrite Hlog. exact Hevs.
Defined.

Lemma encrypt64For_never_prompts_witness :
  trim (default [] (Some Stub.account)) ≠ [] ∧
  forallb (λ ev, negb (is_wallet_event ev))
    (new_events (encrypt64For Stub.plain Stub.contract (Some Stub.account) 500) fresh)
  = true.
Proof.
  assert (Hgiven : trim (default [] (Some Stub.account)) ≠ []) by discriminate.
  split; [exact Hgiven|].
  exact (proj2 (proj2 (proj2 (encrypt64For_never_prompts Stub.plain Stub.contract
                                (Some Stub.account) 500 fresh))) Hgiven).
Defined.

Section EncryptBounds.

Context (W : World).

Local Abbreviation created s := (Async.count_event is_createEncryptedInput s).

Lemma created_app s s' evs :
  log s' = log s ++ evs →
  created s' = (created s + length (List.filter is_createEncryptedInput evs))%nat.
Proof.
  intros H. unfold Async.count_event. by rewrite H, List.filter_app, length_app.
Qed.

Lemma filter_none {X} (P Q : X → bool) l :
  (∀ x, P x = true → Q x = false) → forallb P l = true → List.filter Q l = [].
Proof.
  intros HPQ Hl. induction l as [|x l IH]; [done|]. simpl in *.
  apply andb_true_iff in Hl as [Hx Hl]. by rewrite (HPQ _ Hx), IH.
Qed.

Lemma attachExtraData_no_create enc ca ua :
  steady (λ ev, negb (is_createEncryptedInput ev)) (attachExtraData W enc ca ua).
Proof.
  unfold attachExtraData. cbv zeta.
  destruct (SDK.setExtraData enc); by apply steady_call.
Qed.

Lemma doEncrypt_no_create enc v :
  steady (λ ev, negb (is_createEncryptedInput ev)) (doEncrypt enc v).
Proof.
  unfold doEncrypt.
  apply steady_bind; [by apply steady_call|]. intros _.
  apply steady_bind; [by apply steady_call|]. intros out. cbv zeta.
  destruct (negb _); [apply steady_throw|].
  destruct (negb _); [apply steady_throw|apply steady_ret].
Qed.

(** One attempt is one [createEncryptedInput] call. *)
Lemma attempt_creates_once r shape ca ua v s :
  created (attempt W r shape ca ua v s).2 = S (created s).
Proof.
  assert (Hrest : ∀ enc, steady (λ ev, negb (is_createEncryptedInput ev))
                    (attachExtraData W enc ca ua ;; doEncrypt enc v)).
  { intros enc. apply steady_bind; [apply attachExtraData_no_create|].
    intros _. apply doEncrypt_no_create. }
  unfold attempt, mbind at 1, M_bind at 1, call.
  set (s1 := {| _relayer := _relayer s; _ud_kp := _ud_kp s;
                log := log s ++ [EvCreateEncryptedInput shape ca ua] |}).
  assert (Hs1 : created s1 = S (created s)).
  { rewrite (created_app s s1 [EvCreateEncryptedInput shape ca ua]) by done.
    simpl. lia. }
  destruct (SDK.createEncryptedInput r (log s) shape ca ua) as [enc|e]; [|done].
  destruct (Hrest enc (cache s1) s1 eq_refl) as (_ & evs & Hlog & Hevs).
  rewrite (created_app _ _ _ Hlog), Hs1.
  rewrite (filter_none (λ ev, negb (is_createEncryptedInput ev))
             is_createEncryptedInput evs); [simpl; lia| |done].
  intros ev. apply negb_true_iff.
Qed.

Lemma first_success_creates r v l e s :
  (created (first_success W r v l e s).2 ≤ created s + length l)%nat.
Proof.
  revert e s. induction l as [|[[shape ca] ua] l IH]; intros e s; simpl; [lia|].
  unfold try_catch, mbind, M_bind.
  pose proof (attempt_creates_once r shape ca ua v s) as Hone.
  destruct (attempt W r shape ca ua v s) as [[x|e1] s1]; simpl in *; [lia|].
  specialize (IH e1 s1). lia.
Qed.

Lemma pair_attempts_length (ca : list N) (uaList : list (list N)) :
  length (flat_map (λ ua, [(ObjectArg, ca, ua); (Positional, ca, ua)]) uaList)
  = (2 * length uaList)%nat.
Proof. induction uaList as [|ua uaList IH]; simpl; [done|]. rewrite IH. lia. Qed.

Lemma attempts_length caList uaList :
  length (attempts caList uaList) = (2 * (length caList * length uaList))%nat.
Proof.
  unfold attempts. induction caList as [|ca caList IH]; simpl; [lia|].
  rewrite length_app, IH, pair_attempts_length. lia.
Qed.

(** X6.  One call of [encrypt64For] makes at most eight
    [createEncryptedInput] calls: two shapes for each of at most two
    contract candidates and two user candidates, each pair and shape tried
    at most once. *)
Theorem encrypt64For_at_most_eight_attempts contract user v s :
  (created (encrypt64For W contract user v s).2 ≤ created s + 8)%nat.
Proof.
  destruct (initRelayer_session_calls W s I) as (_ & evs1 & Hlog1 & Hevs1).
  assert (H1 : created (initRelayer W s).2 = created s).
  { rewrite (created_app _ _ _ Hlog1), (filter_none is_session_event) ; [simpl; lia| |done].
    by intros []. }
  destruct (initRelayer W s) as [[r|e] s1] eqn:Hinit;
    [|unfold encrypt64For, mbind, M_bind; rewrite Hinit; simpl in *; lia].
  destruct (ensureUserAddress_steady W user (cache s1) s1 eq_refl)
    as (_ & evs2 & Hlog2 & Hevs2).
  assert (H2 : created (ensureUserAddress W user s1).2 = created s1).
  { rewrite (created_app _ _ _ Hlog2), (filter_none is_account_query); [simpl; lia| |done].
    by intros []. }
  destruct (ensureUserAddress W user s1) as [[uaRaw|e] s2] eqn:Hua;
    [|unfold encrypt64For, mbind, M_bind; rewrite Hinit, Hua; simpl in *; lia].
  rewrite (encrypt64For_run W _ _ _ _ _ _ _ _ Hinit Hua). simpl in *.
  case_bool_decide; [simpl; lia|]. case_bool_decide; [simpl; lia|].
  pose proof (first_success_creates r v
    (attempts (addressVariants W contract) (addressVariants W uaRaw)) VUndefined s2) as H3.
  rewrite attempts_length in H3.
  pose proof (addressVariants_length W contract) as Hca.
  pose proof (addressVariants_length W uaRaw) as Hua'.
  destruct (first_success _ _ _ _ _ _) as [[[x|e]|e] s3]; simpl in *; nia.
Qed.

Lemma doEncrypt_returns_complete enc v s x s' :
  doEncrypt enc v s = (Ok x, s') →
  truthy (handle x) = true ∧ truthy (attestation x) = true.
Proof.
  unfold doEncrypt. run_monad.
  destruct (SDK.add64 enc (log s) v); [|done].
  destruct (SDK.encrypt enc _) as [out|]; [|done].
  destruct (truthy (first_of _)) eqn:Hh; [|done]. simpl.
  destruct (truthy (or_else _ _)) eqn:Hp; [|done]. simpl.
  by intros [= <- <-].
Qed.

Lemma attempt_returns_complete r shape ca ua v s x s' :
  attempt W r shape ca ua v s = (Ok x, s') →
  truthy (handle x) = true ∧ truthy (attestation x) = true.
Proof.
  unfold attempt, mbind, M_bind.
  destruct (call _ _ s) as [[enc|e] s1]; [|done].
  destruct (attachExtraData W enc ca ua s1) as [[[]|e] s2]; [|done].
  apply doEncrypt_returns_complete.
Qed.

(** X7.  Whatever the backend answers, a value [encrypt64For] returns has
    a handle and an attestation that are both present (truthy): a
    malformed answer is never passed on as a result. *)
Theorem encrypt64For_returns_complete contract user v s x s' :
  encrypt64For W contract user v s = (Ok x, s') →
  truthy (handle x) = true ∧ truthy (attestation x) = true.
Proof.
  intros Hrun. pose proof (encrypt64For_parts W contract user v s) as Hparts.
  destruct (initRelayer W s) as [[r|e] s1] eqn:Hinit; [|congruence].
  destruct (ensureUserAddress W user s1) as [[uaRaw|e] s2] eqn:Hua; [|congruence].
  rewrite (encrypt64For_run W _ _ _ _ _ _ _ _ Hinit Hua) in Hrun.
  case_bool_decide; [done|]. case_bool_decide; [done|].
  pose proof (first_success_outcome W r v
    (attempts (addressVariants W contract) (addressVariants W uaRaw)) VUndefined s2)
    as Hout.
  destruct (first_success _ _ _ _ _ _) as [[[y|e]|e] s3]; [|done..].
  destruct Hout as (failed & sh & ca & ua & later & e & s4 & _ & _ & Hok).
  injection Hrun as <- <-. by eapply attempt_returns_complete.
Qed.

End EncryptBounds.

Lemma encrypt64For_returns_complete_witness :
  let run := encrypt64For Stub.lowercase_positional_only Stub.contract
               (Some Stub.account) 500 fresh in
  run = (Ok {| handle := VBytes [1; 2]%N; attestation := VBytes [3]%N |}, run.2) ∧
  truthy (VBytes [1; 2]%N) = true ∧ truthy (VBytes [3]%N) = true.
Proof.
  intros run.
  assert (Hrun : run = (Ok {| handle := VBytes [1; 2]%N; attestation := VBytes [3]%N |},
                        run.2)) by reflexivity.
  split; [exact Hrun|].
  exact (encrypt64For_returns_complete Stub.lowercase_positional_only _ _ _ _ _ _ Hrun).
Defined.

(** ** The cache across the exported operations *)

Lemma triple_run_keeps {A} inv P (m : M A) s :
  triple inv P m inv → inv (cache s) → run_keeps inv P m s.
Proof. intros Hm Hs. by apply (triple_new_events inv P m inv). Qed.

Section Operations.

Context (W : World).
Implicit Types (inv : option SDK.Instance * option Keypair → Prop).

Lemma steady_in {A} inv P Q (m : M A) :
  steady P m → (∀ ev, P ev = true → Q ev = true) → triple inv Q m inv.
Proof. intros Hm HPQ. apply steady_triple. by eapply steady_weaken. Qed.

Lemma encrypt64For_triple inv P contract user v :
  triple inv P (initRelayer W) inv →
  (∀ ev, is_account_query ev || is_builder_event ev = true → P ev = true) →
  triple inv P (encrypt64For W contract user v) inv.
Proof.
  intros Hinit HP. unfold encrypt64For.
  apply triple_bind; [done|]. intros r.
  apply triple_bind.
  { eapply steady_in; [apply ensureUserAddress_steady|].
    intros ev Hev. apply HP. by rewrite Hev. }
  intros uaRaw. cbv zeta.
  destruct (bool_decide _); [by apply triple_throw|].
  destruct (bool_decide _); [by apply triple_throw|].
  apply triple_bind.
  { eapply steady_in; [apply for_ca_steady|].
    intros ev Hev. apply HP. apply orb_true_iff. right. by destruct ev. }
  intros [x|e]; [by apply triple_ret|by apply triple_throw].
Qed.

Lemma publicDecrypt_triple inv P handles :
  triple inv P (initRelayer W) inv →
  P (EvPublicDecrypt handles) = true →
  triple inv P (publicDecrypt W handles) inv.
Proof.
  intros Hinit HP. unfold publicDecrypt.
  apply triple_bind; [done|]. intros r.
  apply triple_bind; [by apply triple_call|]. intros out. by apply triple_lift.
Qed.

Lemma userDecrypt_triple inv P handles user contract :
  triple inv P (initRelayer W) inv →
  (∀ r, triple (λ c, inv c ∧ c.2 = None) P (prepare_keypair W r) inv) →
  (∀ ev, is_account_query ev || is_signer_setup ev || is_prompt_event ev
         || is_decrypt_event ev || match ev with EvDateNow => true | _ => false end
         = true → P ev = true) →
  triple inv P (userDecrypt W handles user contract) inv.
Proof.
  intros Hinit Hprepare HP. unfold userDecrypt.
  apply triple_bind; [|intros out; by apply triple_lift].
  unfold userDecrypt_request.
  apply triple_bind; [done|]. intros r.
  apply triple_bind.
  { eapply steady_in; [apply ensureUserAddress_steady|].
    intros ev Hev. apply HP. by rewrite Hev. }
  intros ua. cbv zeta.
  apply triple_get__ud_kp. intros kp0.
  apply triple_bind.
  { destruct kp0; [apply triple_ret; by intros c [? _]|apply Hprepare]. }
  intros _. apply triple_get__ud_kp. intros kp1.
  apply (triple_consequence inv _ inv _ P P); [by intros c [? _]|done..|].
  destruct kp1 as [kp|]; [|by apply triple_throw].
  apply triple_bind.
  { eapply steady_in; [apply _getSignerAndUser_steady|].
    intros ev Hev. apply HP. rewrite Hev. by rewrite !orb_true_r. }
  intros [[provider signer] account].
  apply triple_bind; [by apply triple_call; [|apply HP]|]. intros now.
  apply triple_bind; [by apply triple_call; [|apply HP]|]. intros eip.
  apply triple_bind; [by apply triple_call; [|apply HP]|]. intros signature.
  by apply triple_call; [|apply HP].
Qed.

(** With a cached instance [initRelayer] returns it and makes no call. *)
Lemma initRelayer_cached_triple r :
  triple (λ c, c.1 = Some r) (λ _, false) (initRelayer W) (λ c, c.1 = Some r).
Proof.
  intros s Hs. simpl in Hs. rewrite (initRelayer_cached W s r Hs).
  split; [done|]. exists []. by rewrite app_nil_r.
Qed.

(** X8.  Once an instance is cached, every exported operation works
    with it: none of them replaces or clears it, and none calls
    [initSDK] or [createInstance] again. *)
Theorem session_reused (s : state) (r : SDK.Instance) :
  _relayer s = Some r →
  let reused {A} (m : M A) :=
    run_keeps (λ c, c.1 = Some r) (λ ev, negb (is_connect_event ev)) m s in
  reused (initRelayer W) ∧
  (∀ contract user v, reused (encrypt64For W contract user v)) ∧
  (∀ handles user contract, reused (userDecrypt W handles user contract)) ∧
  (∀ handles, reused (publicDecrypt W handles)).
Proof.
  intros Hs reused. subst reused.
  assert (Hinit : triple (λ c, c.1 = Some r) (λ ev, negb (is_connect_event ev))
                    (initRelayer W) (λ c, c.1 = Some r)).
  { apply (triple_consequence (λ c, c.1 = Some r) _ (λ c, c.1 = Some r) _
             (λ _, false) _); [done..|apply initRelayer_cached_triple]. }
  split_and!; intros; apply triple_run_keeps; try done.
  - apply encrypt64For_triple; [done|]. by intros [].
  - apply userDecrypt_triple; [done| |by intros []].
    intros r'.
    apply (triple_consequence (λ c, c.1 = Some r) _ (λ c, c.1 = Some r) _
             (λ ev, negb (is_connect_event ev)) _);
      [by intros c [? _]|done..|by apply prepare_keypair_triple].
  - by apply publicDecrypt_triple.
Qed.

(** X9.  Once a keypair is cached, every exported operation works with
    it: none of them replaces or clears it, and none calls a keypair
    generator again. *)
Theorem keypair_reused (s : state) (kp : Keypair) :
  _ud_kp s = Some kp →
  let reused {A} (m : M A) :=
    run_keeps (λ c, c.2 = Some kp) (λ ev, negb (Async.is_generateKeypair ev)) m s in
  reused (initRelayer W) ∧
  (∀ contract user v, reused (encrypt64For W contract user v)) ∧
  (∀ handles user contract, reused (userDecrypt W handles user contract)) ∧
  (∀ handles, reused (publicDecrypt W handles)).
Proof.
  intros Hs reused. subst reused.
  assert (Hinit : triple (λ c, c.2 = Some kp) (λ ev, negb (Async.is_generateKeypair ev))
                    (initRelayer W) (λ c, c.2 = Some kp)).
  { apply (triple_consequence (λ c, c.2 = Some kp) _ (λ c, c.2 = Some kp) _
             is_connect_event _); [done|done|by intros []|].
    apply initRelayer_keeps_keypair. }
  split_and!; intros; apply triple_run_keeps; try done.
  - apply encrypt64For_triple; [done|]. by intros [].
  - apply userDecrypt_triple; [done| |by intros []].
    intros r'.
    apply (triple_consequence (λ _, False) _ (λ c, c.2 = Some kp) _
             (λ ev, negb (Async.is_generateKeypair ev)) _);
      [|done|done|apply triple_false].
    intros c [H1 H2]. simpl in *. congruence.
  - by apply publicDecrypt_triple.
Qed.

(** X10.  [publicDecrypt] never reaches the wallet, never works on an
    encrypted input and never asks for a signature: besides session
    calls, its only call is the public-decrypt request for the handles as
    given. *)
Theorem publicDecrypt_calls (handles : list (list N)) (s : state) :
  run_keeps (λ _, True)
    (λ ev, (is_session_event ev || is_public_request handles ev)
           && negb (is_wallet_event ev) && negb (is_builder_event ev))
    (publicDecrypt W handles) s.
Proof.
  apply triple_run_keeps; [|done].
  apply publicDecrypt_triple; [|simpl; by rewrite bool_decide_eq_true_2].
  apply (triple_consequence (λ _, True) _ (λ _, True) _ is_session_event _);
    [done|done|by intros []|apply initRelayer_session_calls].
Qed.

End Operations.

Lemma session_reused_witness :
  let s := (initRelayer Stub.plain fresh).2 in
  _relayer s = Some Stub.accepting ∧
  _relayer (encrypt64For Stub.plain Stub.contract None 500 s).2 = Some Stub.accepting ∧
  forallb (λ ev, negb (is_connect_event ev))
    (new_events (publicDecrypt Stub.plain [Stub.handleA]) s) = true.
Proof.
  intros s. split; [reflexivity|].
  destruct (session_reused Stub.plain s Stub.accepting eq_refl)
    as (_ & Henc & _ & Hpub).
  split.
  - exact (proj1 (Henc Stub.contract None 500)).
  - exact (proj2 (proj2 (Hpub [Stub.handleA]))).
Defined.

Lemma keypair_reused_witness :
  let s := (initRelayer Stub.plain fresh).2 in
  _ud_kp s = Some Stub.keypair ∧
  _ud_kp (userDecrypt Stub.plain [Stub.handleA] None Stub.contract s).2
  = Some Stub.keypair ∧
  forallb (λ ev, negb (Async.is_generateKeypair ev))
    (new_events (userDecrypt Stub.plain [Stub.handleA] None Stub.contract) s) = true.
Proof.
  intros s. split; [reflexivity|].
  destruct (keypair_reused Stub.plain s Stub.keypair eq_refl)
    as (_ & _ & Huser & _).
  split.
  - exact (proj1 (Huser [Stub.handleA] None Stub.contract)).
  - exact (proj2 (proj2 (Huser [Stub.handleA] None Stub.contract))).
Defined.

(** ** The user address *)

(** X11.  An address [ensureUserAddress] returns is never empty, and
    the call leaves the cache alone.  A given address that is not blank is
    returned trimmed, without any call; otherwise the result is the
    wallet's first account, as the wallet gave it, and the account query
    is the only call made. *)
Theorem ensureUserAddress_result (W : World) (user : option (list N))
    (s s' : state) (a : list N) :
  ensureUserAddress W user s = (Ok a, s') →
  a ≠ [] ∧ cache s' = cache s ∧
  (trim (default [] user) ≠ [] → a = trim (default [] user) ∧ s' = s) ∧
  (trim (default [] user) = [] →
   ∃ eth rest, ethereum W = Some eth ∧
     Wallet.request_eth_accounts eth (log s) = Ok (Some (a :: rest)) ∧
     s' = logged EvEthAccounts s).
Proof.
  unfold ensureUserAddress. cbv zeta. case_bool_decide as Hraw; simpl.
  - destruct (ethereum W) as [eth|]; [|done]. run_monad.
    destruct (Wallet.request_eth_accounts eth (log s)) as [[[|acc0 rest]|]|]
      eqn:Hreq; try done.
    case_bool_decide; [done|]. intros [= <- <-].
    split_and!; try done. intros _. by exists eth, rest.
  - intros [= <- <-]. split_and!; [done|done|done|by intros ?].
Qed.

Lemma ensureUserAddress_result_witness :
  ensureUserAddress Stub.plain (Some (js "   ")) fresh
  = (Ok Stub.account, logged EvEthAccounts fresh) ∧
  Stub.account ≠ [].
Proof.
  split; [reflexivity|].
  exact (proj1 (ensureUserAddress_result Stub.plain (Some (js "   ")) fresh
                  (logged EvEthAccounts fresh) Stub.account eq_refl)).
Defined.

(** ** A failing keypair generator *)

Section KeypairFailure.

Context (W : World).

Lemma prepare_keypair_run r s :
  prepare_keypair W r s =
  match keypair_generator W r (log s) with
  | Ok kp =>
      (Ok (), {| _relayer := _relayer s; _ud_kp := Some kp;
                 log := log s ++ [EvGenerateKeypair
                                    (bool_decide (is_Some (SDK.generateKeypair r)))] |})
  | Throw e =>
      (Throw e, logged (EvGenerateKeypair
                          (bool_decide (is_Some (SDK.generateKeypair r)))) s)
  end.
Proof.
  unfold prepare_keypair, keypair_generator.
  destruct (SDK.generateKeypair r) as [gen|]; run_monad.
  - by destruct (gen (log s)).
  - by destruct (sdkGenerateKeypair W (log s)).
Qed.

(** Without a cached keypair, [userDecrypt] for a given user address
    starts with the keypair generator. *)
Lemma userDecrypt_generates_first s r handles user contract :
  _relayer s = Some r → _ud_kp s = None →
  trim (default [] user) ≠ [] →
  ∃ evs, log (userDecrypt W handles user contract s).2
         = log s ++ EvGenerateKeypair (bool_decide (is_Some (SDK.generateKeypair r)))
                    :: evs.
Proof.
  intros Hr Hkp Huser. rewrite userDecrypt_run.
  set (b := bool_decide _).
  assert (∃ evs, log (userDecrypt_request W handles user contract s).2
                 = log s ++ EvGenerateKeypair b :: evs) as [evs Hevs];
    [|exists evs; by destruct (userDecrypt_request _ _ _ _ _) as [[?|?] ?]].
  unfold userDecrypt_request.
  unfold mbind at 1, M_bind at 1. rewrite (initRelayer_cached W s r Hr).
  unfold mbind at 1, M_bind at 1. rewrite (ensureUserAddress_given W _ _ Huser).
  cbv zeta.
  unfold mbind at 1, M_bind at 1, get__ud_kp at 1. rewrite Hkp.
  unfold mbind at 1, M_bind at 1. rewrite prepare_keypair_run.
  fold b.
  destruct (keypair_generator W r (log s)) as [kp|e']; [|by exists []].
  unfold mbind at 1, M_bind at 1, get__ud_kp at 1. cbn [_ud_kp].
  set (s2 := {| _relayer := _; _ud_kp := Some kp; log := _ |}).
  destruct (_getSignerAndUser_steady W (cache s2) s2 eq_refl)
    as (_ & evs1 & Hlog1 & _).
  unfold mbind at 1, M_bind at 1.
  destruct (_getSignerAndUser W s2) as [[[[provider signer] account]|e'] s3];
    simpl in Hlog1.
  - run_monad.
    repeat match goal with
           | |- context [match ?x with Ok _ => _ | Throw _ => _ end] =>
               destruct x; simpl
           end;
      rewrite Hlog1, <- !app_assoc; simpl; by eexists.
  - simpl. rewrite Hlog1, <- !app_assoc. simpl. by eexists.
Qed.

(** X12.  When the instance is created but the keypair generation
    throws, [initRelayer] throws that error, and still the instance stays
    cached, without keypair: the next [initRelayer] returns it without any
    call and without trying the keypair again.  It is [userDecrypt] that
    tries again: with a user address given, the generator is the first
    thing it calls. *)
Theorem initRelayer_keypair_failure (s : state) (r : SDK.Instance) (e : jsval) :
  _relayer s = None → _ud_kp s = None →
  is_Some (ethereum W) →
  initSDK W (log s) = Ok () →
  createInstance W (log s ++ [EvInitSDK]) = Ok r →
  keypair_generator W r (log s ++ [EvInitSDK; EvCreateInstance]) = Throw e →
  let on_instance := bool_decide (is_Some (SDK.generateKeypair r)) in
  let s' := {| _relayer := Some r; _ud_kp := None;
               log := log s ++ [EvInitSDK; EvCreateInstance;
                                EvGenerateKeypair on_instance] |} in
  initRelayer W s = (Throw e, s') ∧
  initRelayer W s' = (Ok r, s') ∧
  ∀ handles user contract,
    trim (default [] user) ≠ [] →
    ∃ evs, log (userDecrypt W handles user contract s').2
           = log s' ++ EvGenerateKeypair on_instance :: evs.
Proof.
  intros Hnone Hkp [eth Heth] Hsdk Hcreate Hgen on_instance s'.
  split_and!.
  - rewrite (initRelayer_uncached W _ Hnone), Heth, Hsdk, Hcreate, Hkp.
    cbv zeta. rewrite prepare_keypair_run. cbn [log].
    rewrite <- app_assoc. cbn [app].
    rewrite Hgen. unfold logged. cbn [log _relayer _ud_kp].
    by rewrite <- app_assoc.
  - by apply initRelayer_cached.
  - intros handles user contract Huser.
    by apply (userDecrypt_generates_first s' r).
Qed.

End KeypairFailure.

Lemma initRelayer_keypair_failure_witness :
  let s' := {| _relayer := Some flaky_keygen_backend; _ud_kp := None;
               log := [EvInitSDK; EvCreateInstance; EvGenerateKeypair true] |} in
  initRelayer flaky_keygen fresh = (Throw (Error (js "no entropy")), s') ∧
  initRelayer flaky_keygen s' = (Ok flaky_keygen_backend, s').
Proof.
  intros s'.
  destruct (initRelayer_keypair_failure flaky_keygen fresh flaky_keygen_backend
              (Error (js "no entropy")) eq_refl eq_refl (mk_is_Some _ _ eq_refl)
              eq_refl eq_refl eq_refl)
    as (Hrun & Hnext & _).
  split; [exact Hrun|exact Hnext].
Defined.

(** ** Without a wallet *)

(** X13.  Without [window.ethereum], on a page that has no session yet
    every exported operation throws "MetaMask not found" before any call,
    and leaves the state as it was.  With a cached session and keypair,
    [userDecrypt] still throws it before any call, whether a user address
    is given or not, since the signature needs the wallet. *)
Theorem no_wallet_no_call (W : World) (s : state) :
  ethereum W = None →
  let refused {A} (m : M A) := m s = (Throw (Error (js "MetaMask not found")), s) in
  (_relayer s = None →
   refused (initRelayer W) ∧
   (∀ contract user v, refused (encrypt64For W contract user v)) ∧
   (∀ handles user contract, refused (userDecrypt W handles user contract)) ∧
   (∀ handles, refused (publicDecrypt W handles))) ∧
  (is_Some (_relayer s) → is_Some (_ud_kp s) →
   ∀ handles user contract, refused (userDecrypt W handles user contract)).
Proof.
  intros Hw refused. subst refused. cbv beta. split.
  - intros Hnone.
    assert (Hinit : initRelayer W s = (Throw (Error (js "MetaMask not found")), s))
      by by rewrite (initRelayer_uncached W _ Hnone), Hw.
    split_and!; [done|..]; intros.
    + unfold encrypt64For. unfold mbind at 1, M_bind at 1. by rewrite Hinit.
    + rewrite userDecrypt_run. unfold userDecrypt_request.
      unfold mbind at 1, M_bind at 1. by rewrite Hinit.
    + rewrite publicDecrypt_run. by rewrite Hinit.
  - intros [r Hr] [kp Hkp] handles user contract.
    rewrite userDecrypt_run. unfold userDecrypt_request.
    unfold mbind at 1, M_bind at 1. rewrite (initRelayer_cached W s r Hr).
    unfold mbind at 1, M_bind at 1.
    destruct (decide (trim (default [] user) = [])) as [Hblank|Hgiven].
    { assert (Hua : ensureUserAddress W user s
                    = (Throw (Error (js "MetaMask not found")), s)).
      { unfold ensureUserAddress. cbv zeta.
        by rewrite bool_decide_eq_true_2, Hw. }
      by rewrite Hua. }
    rewrite (ensureUserAddress_given W _ _ Hgiven). cbv zeta.
    unfold mbind at 1, M_bind at 1, get__ud_kp at 1. rewrite Hkp.
    unfold mbind at 1, M_bind at 1, mret at 1, M_ret at 1.
    unfold mbind at 1, M_bind at 1, get__ud_kp at 1. rewrite Hkp.
    unfold mbind at 1, M_bind at 1. unfold _getSignerAndUser. by rewrite Hw.
Qed.

Lemma no_wallet_no_call_witness :
  publicDecrypt no_wallet [Stub.handleA] fresh
  = (Throw (Error (js "MetaMask not found")), fresh) ∧
  userDecrypt no_wallet [Stub.handleA] (Some Stub.account) Stub.contract
    (initRelayer Stub.plain fresh).2
  = (Throw (Error (js "MetaMask not found")), (initRelayer Stub.plain fresh).2).
Proof.
  split.
  - destruct (no_wallet_no_call no_wallet fresh eq_refl) as [H _].
    destruct (H eq_refl) as (_ & _ & _ & Hpub). exact (Hpub [Stub.handleA]).
  - destruct (no_wallet_no_call no_wallet (initRelayer Stub.plain fresh).2 eq_refl)
      as [_ H].
    exact (H (mk_is_Some _ _ eq_refl) (mk_is_Some _ _ eq_refl)
             [Stub.handleA] (Some Stub.account) Stub.contract).
Defined.

(** ** The signed request of [userDecrypt] *)

Section Ordered.

Context {A B : Type} (P : event → bool) (Q : list event → Prop).

Lemma ordered_setup (m : M A) :
  triple (λ _, True) P m (λ _, True) → Q [] → ordered P Q m.
Proof.
  intros Hm HQ s. destruct (Hm s I) as (_ & evs & Hlog & Hevs).
  exists evs, []. by rewrite app_nil_r.
Qed.

Lemma ordered_bind (m : M A) (k : A → M B) :
  triple (λ _, True) P m (λ _, True) → Q [] →
  (∀ a, ordered P Q (k a)) → ordered P Q (m ≫= k).
Proof.
  intros Hm HQ Hk s. destruct (Hm s I) as (_ & evs & Hlog & Hevs).
  unfold mbind, M_bind. destruct (m s) as [[a|e] s1]; simpl in Hlog.
  - destruct (Hk a s1) as (setup & tail & Hlog' & Hsetup & Htail).
    exists (evs ++ setup), tail. rewrite Hlog', Hlog, <- !app_assoc.
    split_and!; [done| |done]. rewrite forallb_app. by rewrite Hevs, Hsetup.
  - exists evs, []. by rewrite app_nil_r.
Qed.

Lemma ordered_get__ud_kp (k : option Keypair → M B) :
  (∀ a, ordered P Q (k a)) → ordered P Q (get__ud_kp ≫= k).
Proof. intros Hk s. apply (Hk (_ud_kp s) s). Qed.

Lemma ordered_throw (e : jsval) : Q [] → ordered P Q (mthrow e : M A).
Proof. intros HQ s. exists [], []. simpl. by rewrite app_nil_r. Qed.

End Ordered.

Section UserDecryptCalls.

Context (W : World).

Lemma stage {A} P (m : M A) :
  steady P m → (∀ ev, P ev = true → is_setup_event ev = true) →
  triple (λ _, True) is_setup_event m (λ _, True).
Proof. intros Hm HP. by apply (steady_in (λ _, True) P). Qed.

Lemma userDecrypt_request_ordered handles user contract ca :
  resolved W contract ca →
  ordered is_setup_event
    (λ tail, ∃ ua kp startTs eip sig,
       tail `prefix_of` request_calls handles ca ua kp startTs eip sig)
    (userDecrypt_request W handles user contract).
Proof.
  intros Hca.
  assert (Hnil : ∃ ua kp startTs eip sig,
            [] `prefix_of` request_calls handles ca ua kp startTs eip sig).
  { exists [], {| publicKey := VUndefined; privateKey := VUndefined |}, [],
      {| domain := VUndefined; types_UserDecryptRequestVerification := VUndefined;
         message := VUndefined |}, [].
    apply prefix_nil. }
  unfold userDecrypt_request. rewrite (resolved_head W _ _ Hca).
  apply ordered_bind; [|done|intros r].
  { apply (triple_consequence (λ _, True) _ (λ _, True) _ is_session_event _);
      [done|done| |apply initRelayer_session_calls].
    intros ev Hev. unfold is_setup_event. by rewrite Hev. }
  apply ordered_bind; [|done|intros ua].
  { apply (stage is_account_query); [apply ensureUserAddress_steady|].
    intros ev Hev. unfold is_setup_event. by rewrite Hev, orb_true_r. }
  cbv zeta. apply ordered_get__ud_kp. intros kp0.
  apply ordered_bind; [|done|intros _].
  { destruct kp0; [by apply triple_ret|].
    apply prepare_keypair_triple; [done|]. by intros []. }
  apply ordered_get__ud_kp. intros [kp|]; [|by apply ordered_throw].
  apply ordered_bind; [|done|intros [[provider signer] account]].
  { apply (stage is_signer_setup); [apply _getSignerAndUser_steady|].
    intros ev Hev. unfold is_setup_event. by rewrite Hev, orb_true_r. }
  intros s3. exists []. cbn [app forallb]. run_monad.
  set (startTs := of_Z (Date_now W (log s3) `div` 1000)).
  destruct (SDK.createEIP712 r _ _ _ _ _) as [eip|e]; simpl.
  2:{ eexists. rewrite <- !app_assoc. simpl. split_and!; [done..|].
      exists ua, kp, startTs,
        {| domain := VUndefined; types_UserDecryptRequestVerification := VUndefined;
           message := VUndefined |}, [].
      by eexists. }
  destruct (Wallet.signTypedData signer _ eip) as [sig|e]; simpl.
  2:{ eexists. rewrite <- !app_assoc. simpl. split_and!; [done..|].
      exists ua, kp, startTs, eip, []. by eexists. }
  exists (request_calls handles ca ua kp startTs eip sig).
  split_and!; [|done|by exists ua, kp, startTs, eip, sig].
  by rewrite <- !app_assoc.
Qed.

(** X14.  The calls of [userDecrypt], in order: session, account and
    signer-setup calls, then an initial segment of the four closing calls
    [Date.now], [createEIP712], [signTypedData], [userDecrypt].  So the
    decrypt request is the last call and comes right after the signature
    request, at most one signature is asked for, and the typed data that
    is signed and the request that is sent name the same public key, the
    same single contract address, the same start time and 7 days; every
    handle is paired with that contract address. *)
Theorem userDecrypt_protocol (handles : list (list N)) (user : option (list N))
    (contract : list N) (s : state) (ca : list N) :
  resolved W contract ca →
  ∃ setup tail ua kp startTs eip sig,
    new_events (userDecrypt W handles user contract) s = setup ++ tail ∧
    forallb is_setup_event setup = true ∧
    tail `prefix_of` request_calls handles ca ua kp startTs eip sig.
Proof.
  intros Hca.
  destruct (userDecrypt_request_ordered handles user contract ca Hca s)
    as (setup & tail & Hlog & Hsetup & ua & kp & startTs & eip & sig & Htail).
  exists setup, tail, ua, kp, startTs, eip, sig. split_and!; [|done..].
  apply new_events_spec. rewrite userDecrypt_run.
  by destruct (userDecrypt_request _ _ _ _ _) as [[?|?] ?].
Qed.

End UserDecryptCalls.

Lemma userDecrypt_protocol_witness :
  resolved Stub.plain Stub.contract_lc Stub.contract ∧
  ∃ setup tail ua kp startTs eip sig,
    new_events (userDecrypt Stub.plain [Stub.handleA] None Stub.contract_lc) fresh
    = setup ++ tail ∧
    forallb is_setup_event setup = true ∧
    tail `prefix_of` request_calls [Stub.handleA] Stub.contract ua kp startTs eip sig.
Proof.
  split; [reflexivity|].
  apply (userDecrypt_protocol Stub.plain [Stub.handleA] None Stub.contract_lc fresh
           Stub.contract).
  reflexivity.
Defined.

(** ** Decimal strings *)

Lemma js_cons (a : ascii) (s : string) : js (String a s) = N_of_ascii a :: js s.
Proof. reflexivity. Qed.

Lemma is_digit_not_space c : is_digit c = true → is_space c = false.
Proof. unfold is_digit, is_space. intros H. bool_to_prop. lia. Qed.

(** The numeral of [d] is made of decimal digits. *)
Lemma string_of_uint_digits d :
  Forall (λ c, is_digit c = true) (js (NilEmpty.string_of_uint d)).
Proof. induction d; simpl; rewrite ?js_cons; by constructor. Qed.

(** Reading the numeral of [d] after the digits of [acc]. *)
Lemma digits_uint_acc d (acc : positive) :
  digits 10 (Z.pos acc) (js (NilEmpty.string_of_uint d))
  = Some (Z.pos (Pos.of_uint_acc d acc)).
Proof.
  revert acc. induction d; intros acc; [done|..];
    cbn [NilEmpty.string_of_uint Pos.of_uint_acc]; rewrite js_cons;
    rewrite <- IHd; cbn [digits];
    match goal with
    | |- context [digit_value ?c] =>
        let v := eval vm_compute in (digit_value c) in
        change (digit_value c) with v
    end; cbv iota;
    match goal with
    | |- context [(?d <? 10)] => change (d <? 10) with true
    end; cbv iota; f_equal; lia.
Qed.

Lemma digits_uint d :
  digits 10 0 (js (NilEmpty.string_of_uint d)) = Some (Z.of_N (Pos.of_uint d)).
Proof.
  induction d; [done|..];
    cbn [NilEmpty.string_of_uint Pos.of_uint]; rewrite js_cons; cbn [digits];
    match goal with
    | |- context [digit_value ?c] =>
        let v := eval vm_compute in (digit_value c) in
        change (digit_value c) with v
    end; cbv iota;
    match goal with
    | |- context [(?d <? 10)] => change (d <? 10) with true
    end; cbv iota;
    [exact IHd|apply digits_uint_acc..].
Qed.

(** A string of decimal digits is read as a decimal literal. *)
Lemma of_string_digits (l : list N) :
  l ≠ [] → Forall (λ c, is_digit c = true) l → of_string l = digits 10 0 l.
Proof.
  intros Hne Hl. unfold of_string.
  rewrite trim_no_blank by (eapply Forall_impl; [exact Hl|apply is_digit_not_space]).
  destruct l as [|c rest]; [done|]. 
  assert (Hc : (48 ≤ c ≤ 57)%N).
  { pose proof (Forall_inv Hl) as H1. simpl in H1. bool_to_prop. lia. }
  assert (Hrest : match rest with
                  | c2 :: _ => (48 ≤ c2 ≤ 57)%N
                  | [] => True
                  end).
  { destruct rest as [|c2 ?]; [done|].
    apply Forall_cons in Hl as [_ Hl']. apply Forall_cons in Hl' as [H2 _].
    bool_to_prop. lia. }
  assert (Hcases : (c = 48 ∨ c = 49 ∨ c = 50 ∨ c = 51 ∨ c = 52 ∨ c = 53 ∨ c = 54
                    ∨ c = 55 ∨ c = 56 ∨ c = 57)%N) by lia.
  destruct Hcases as [->|[->|[->|[->|[->|[->|[->|[->|[->| ->]]]]]]]]]; try done.
  destruct rest as [|c2 rest]; [done|].
  assert (Hcases : (c2 = 48 ∨ c2 = 49 ∨ c2 = 50 ∨ c2 = 51 ∨ c2 = 52 ∨ c2 = 53
                    ∨ c2 = 54 ∨ c2 = 55 ∨ c2 = 56 ∨ c2 = 57)%N) by lia.
  by destruct Hcases as [->|[->|[->|[->|[->|[->|[->|[->|[->| ->]]]]]]]]].
Qed.

(** The decimal numeral of an integer reads back as that integer. *)
Lemma BigInt_of_Z (z : Z) : BigInt (VString (of_Z z)) = Ok z.
Proof.
  unfold BigInt, parse, of_Z, Z.to_int, NilZero.string_of_int, NilZero.string_of_uint.
  destruct z as [|p|p]; [done|..].
  - pose proof (DecimalPos.Unsigned.to_uint_nonnil p) as Hnil.
    pose proof (DecimalPos.Unsigned.of_to p) as Hp.
    assert (Heq : js match Pos.to_uint p with
                     | Decimal.Nil => "0"
                     | _ => NilEmpty.string_of_uint (Pos.to_uint p)
                     end = js (NilEmpty.string_of_uint (Pos.to_uint p)))
      by by destruct (Pos.to_uint p).
    rewrite Heq. rewrite of_string_digits.
    + by rewrite digits_uint, Hp.
    + by destruct (Pos.to_uint p).
    + apply string_of_uint_digits.
  - pose proof (DecimalPos.Unsigned.to_uint_nonnil p) as Hnil.
    pose proof (DecimalPos.Unsigned.of_to p) as Hp.
    rewrite js_cons.
    assert (Heq : js match Pos.to_uint p with
                     | Decimal.Nil => "0"
                     | _ => NilEmpty.string_of_uint (Pos.to_uint p)
                     end = js (NilEmpty.string_of_uint (Pos.to_uint p)))
      by by destruct (Pos.to_uint p).
    rewrite Heq. unfold of_string.
    rewrite trim_no_blank.
    2:{ constructor; [done|]. eapply Forall_impl; [apply string_of_uint_digits|].
        apply is_digit_not_space. }
    change (N_of_ascii "-") with 45%N. cbv iota.
    assert (Hne : js (NilEmpty.string_of_uint (Pos.to_uint p)) ≠ [])
      by by destruct (Pos.to_uint p).
    unfold nonempty_digits.
    destruct (js (NilEmpty.string_of_uint (Pos.to_uint p))) eqn:Hjs; [done|].
    rewrite <- Hjs, digits_uint, Hp. reflexivity.
Qed.

(** X15.  A response that gives the decrypted values as decimal
    strings, as an array in the order of the handles or as an object
    keyed by handle, is decoded to exactly these integers, whatever their
    size and sign. *)
Theorem decimal_response_exact (dec : list N → Z) (handles : list (list N))
    (out : Response) :
  decimal dec handles out →
  normalize_response handles out = Ok (List.map dec handles).
Proof.
  intros Hout. apply normalize_response_carries.
  destruct out as [vs|m|]; simpl in *; [|by eauto using BigInt_of_Z|done].
  subst vs. induction handles; simpl; constructor; [apply BigInt_of_Z|done].
Qed.

Lemma decimal_response_exact_witness :
  normalize_response [Stub.handleA; Stub.handleB]
    (RArray [VString (js "18446744073709551617"); VString (js "18446744073709551617")])
  = Ok (List.map (λ _, 2 ^ 64 + 1) [Stub.handleA; Stub.handleB]).
Proof.
  apply (decimal_response_exact (λ _, 2 ^ 64 + 1) [Stub.handleA; Stub.handleB]).
  vm_compute. reflexivity.
Defined.

(** ** What [encrypt64For] throws *)

(** X16.  Once the session and the user address are there, what
    [encrypt64For] throws is never a falsy value: when every attempt
    throws and the last thrown value is falsy, the caller gets the error
    "Relayer encrypt failed for all address variants" in its place. *)
Theorem encrypt64For_error_not_falsy (W : World) contract user v s r s1 uaRaw s2 :
  initRelayer W s = (Ok r, s1) →
  ensureUserAddress W user s1 = (Ok uaRaw, s2) →
  (∀ e s', encrypt64For W contract user v s = (Throw e, s') → truthy e = true) ∧
  (∀ e s', addressVariants W contract ≠ [] → addressVariants W uaRaw ≠ [] →
     all_throw W r v (attempts (addressVariants W contract) (addressVariants W uaRaw))
       s2 VUndefined s' e →
     truthy e = false →
     encrypt64For W contract user v s
     = (Throw (Error (js "Relayer encrypt failed for all address variants")), s')).
Proof.
  intros Hinit Hua. rewrite (encrypt64For_run W _ _ _ _ _ _ _ _ Hinit Hua). split.
  - intros e s'. repeat case_bool_decide; [by intros [= <- _]..|].
    destruct (first_success _ _ _ _ _ _) as [[[x|e0]|e0] s3] eqn:Hfs; [done| |].
    + intros [= <- _]. unfold or_else. by destruct (truthy e0) eqn:He0.
    + pose proof (first_success_outcome W r v
        (attempts (addressVariants W contract) (addressVariants W uaRaw))
        VUndefined s2) as Hout.
      by rewrite Hfs in Hout.
  - intros e s' Hca Hual Hall He.
    rewrite !bool_decide_eq_false_2 by done.
    rewrite (all_throw_first_success _ _ _ _ _ _ _ _ Hall).
    unfold or_else. by rewrite He.
Qed.

Lemma encrypt64For_error_not_falsy_witness :
  encrypt64For silent Stub.contract (Some Stub.account) 500 fresh
  = (Throw (Error (js "Relayer encrypt failed for all address variants")),
     (encrypt64For silent Stub.contract (Some Stub.account) 500 fresh).2).
Proof.
  refine (proj2 (encrypt64For_error_not_falsy silent Stub.contract (Some Stub.account)
                   500 fresh silent_backend (initRelayer silent fresh).2 Stub.account
                   (initRelayer silent fresh).2 eq_refl eq_refl)
            VUndefined _ ltac:(discriminate) ltac:(discriminate) _ eq_refl).
  apply first_success_all_throw. vm_compute. reflexivity.
Defined.

(** ** The signer *)

(** X17.  The calls of [_getSignerAndUser] are always an initial
    segment of the four wallet calls in one order (provider, account
    permission, signer, signer address): the signer is never asked for
    before the permission request was made.  It returns only after all
    four, with what these calls gave, makes no call without a wallet, and
    leaves the cache alone. *)
Theorem getSignerAndUser_order (W : World) (s : state) :
  let calls := [EvBrowserProvider; EvRequestAccounts; EvGetSigner; EvGetAddress] in
  cache (_getSignerAndUser W s).2 = cache s ∧
  ∃ n, new_events (_getSignerAndUser W) s = take n calls ∧
       (ethereum W = None → n = 0%nat) ∧
       ∀ provider signer user,
         (_getSignerAndUser W s).1 = Ok (provider, signer, user) →
         n = 4%nat ∧
         ethers_BrowserProvider W (log s) = Ok provider ∧
         Wallet.getSigner provider (log s ++ take 2 calls) = Ok signer ∧
         Wallet.getAddress signer (log s ++ take 3 calls) = Ok user.
Proof.
  intros calls. subst calls. unfold _getSignerAndUser.
  destruct (ethereum W) as [eth|].
  2:{ split; [done|]. exists 0%nat. split_and!; [|done..].
      apply new_events_spec. simpl. by rewrite app_nil_r. }
  run_monad.
  destruct (ethers_BrowserProvider W (log s)) as [p|e] eqn:Hp; simpl.
  2:{ split; [done|]. exists 1%nat. split_and!; [|done..].
      apply new_events_spec. simpl. by rewrite Hp. }
  destruct (Wallet.send_eth_requestAccounts p _) eqn:Hreq; simpl.
  2:{ split; [done|]. exists 2%nat. split_and!; [|done..].
      apply new_events_spec. simpl. by rewrite Hp, Hreq, <- !app_assoc. }
  destruct (Wallet.getSigner p _) as [sg|e] eqn:Hsg; simpl.
  2:{ split; [done|]. exists 3%nat. split_and!; [|done..].
      apply new_events_spec. simpl. by rewrite Hp, Hreq, Hsg, <- !app_assoc. }
  destruct (Wallet.getAddress sg _) as [u|e] eqn:Hu; simpl.
  2:{ split; [done|]. exists 4%nat. split_and!; [|done..].
      apply new_events_spec. simpl.
      by rewrite Hp, Hreq, Hsg, Hu, <- !app_assoc. }
  split; [done|]. exists 4%nat. split_and!; [|done|].
  - apply new_events_spec. simpl. by rewrite Hp, Hreq, Hsg, Hu, <- !app_assoc.
  - intros provider signer user [= <- <- <-].
    rewrite <- !app_assoc in *. by simpl in *.
Qed.

Lemma getSignerAndUser_order_witness :
  ∃ n, new_events (_getSignerAndUser Stub.plain) fresh
       = take n [EvBrowserProvider; EvRequestAccounts; EvGetSigner; EvGetAddress] ∧
       n = 4%nat.
Proof.
  destruct (getSignerAndUser_order Stub.plain fresh) as (_ & n & Hn & _ & Hok).
  exists n. split; [exact Hn|].
  exact (proj1 (Hok Stub.provider Stub.signer Stub.account eq_refl)).
Defined.
